(** * Bond analytics of [Financial_Hard.py], accounts of [Easy_finance.py]

    A shallow embedding of the classes [Calculator], [FinancialCalculator]
    and [Bond], and the properties of the bond analytics; then the classes
    [BankAccount] and [SavingsAccount].

    Numbers.  Python's [float] values are idealised as exact rationals
    ([Q], compared with [==]): rounding, overflow, underflow, infinities
    and NaN are not part of this model.  Python's [int] values
    ([maturity_years], [payments_per_year], [total_periods], the period
    index [t]) are [Z].  Module [Binary64] embeds the class [Bond] a second
    time over IEEE-754 binary64 values, where infinities and NaN exist and
    [**] overflows and underflows.

    Errors.  A Python call either returns a value or raises.  The
    exception records its class and the source line of the statement that
    raised it (the innermost frame of the traceback), so that the explicit
    guard of [Calculator.divide] (line 21) is told apart from the
    interpreter's own check on [/]. *)

From Stdlib Require Import String.
From Stdlib Require Import SpecFloat.
From Stdlib Require Import ZArith QArith Qpower Qabs Qfield List Lia Lqa Bool.
Import ListNotations.

Local Open Scope Z_scope.
Local Open Scope Q_scope.

(** ** Exceptions and the error monad *)

Inductive exc_class : Set :=
| ZeroDivisionError
| IndexError
| OverflowError.

Record exn : Set := mkExn { exc : exc_class; raised_at : nat }.

Inductive result (A : Type) : Type :=
| Ok (a : A)
| Raise (e : exn).

Arguments Ok {A} a.
Arguments Raise {A} e.

Definition bind {A B : Type} (c : result A) (k : A -> result B) : result B :=
  match c with
  | Ok a => k a
  | Raise e => Raise e
  end.

Notation "x <- c ;; k" := (bind c (fun x => k))
  (at level 61, c at next level, right associativity).

(** Two results agree when both return equal rationals or both raise the
    same exception. *)
Definition req (r1 r2 : result Q) : Prop :=
  match r1, r2 with
  | Ok a, Ok b => a == b
  | Raise e1, Raise e2 => e1 = e2
  | _, _ => False
  end.

(** [r] is a returned value within [tol] of [target]. *)
Definition approx (r : result Q) (target tol : Q) : Prop :=
  match r with
  | Ok x => target - tol <= x /\ x <= target + tol
  | Raise _ => False
  end.

(** ** Python primitives used by the source *)

(** [a / b] on numbers: the interpreter raises [ZeroDivisionError] when the
    divisor is zero; [line] is the line of the statement.  The quotient is
    exact: a float quotient that overflows to [inf] is not modelled here
    (see [Binary64.truediv]). *)
Definition truediv (line : nat) (a b : Q) : result Q :=
  if Qeq_bool b 0 then Raise (mkExn ZeroDivisionError line)
  else Ok (a / b).

(** [base ** exponent] with an [int] exponent: zero to a negative power
    raises [ZeroDivisionError].  The power is exact: a float power that
    overflows (Python raises [OverflowError]) or underflows to [0.0] is not
    modelled here (see [Binary64.pow]). *)
Definition pow (line : nat) (base : Q) (exponent : Z) : result Q :=
  if Qeq_bool base 0 && (exponent <? 0)%Z
  then Raise (mkExn ZeroDivisionError line)
  else Ok (base ^ exponent).

(** [l[i]] and [l[i] = v] with Python's index rule: a negative index counts
    from the end, and an index outside the list raises [IndexError]. *)
Definition norm_index {A : Type} (l : list A) (i : Z) : option nat :=
  let len := Z.of_nat (length l) in
  let j := if (i <? 0)%Z then (i + len)%Z else i in
  if ((0 <=? j) && (j <? len))%Z then Some (Z.to_nat j) else None.

Fixpoint set_nth {A : Type} (l : list A) (k : nat) (v : A) : list A :=
  match l, k with
  | [], _ => []
  | _ :: tl, O => v :: tl
  | hd :: tl, S k' => hd :: set_nth tl k' v
  end.

Definition getitem {A : Type} (line : nat) (l : list A) (i : Z) : result A :=
  match norm_index l i with
  | Some k =>
      match nth_error l k with
      | Some x => Ok x
      | None => Raise (mkExn IndexError line)
      end
  | None => Raise (mkExn IndexError line)
  end.

Definition setitem {A : Type} (line : nat) (l : list A) (i : Z) (v : A)
  : result (list A) :=
  match norm_index l i with
  | Some k => Ok (set_nth l k v)
  | None => Raise (mkExn IndexError line)
  end.

(** [[x] * n]: [n] copies, none when [n <= 0]. *)
Definition list_mul {A : Type} (x : A) (n : Z) : list A :=
  repeat x (Z.to_nat n).

(** ** class Calculator *)

Definition add (a b : Q) : Q := a + b.
Definition subtract (a b : Q) : Q := a - b.
Definition multiply (a b : Q) : Q := a * b.

(** Lines 19-22: the guard raises at line 21; line 22 divides. *)
Definition divide (a b : Q) : result Q :=
  if Qeq_bool b 0 then Raise (mkExn ZeroDivisionError 21)
  else truediv 22 a b.

(** Lines 24-25.  Every caller passes an [int] exponent. *)
Definition power (base : Q) (exponent : Z) : result Q :=
  pow 25 base exponent.

(** ** class FinancialCalculator *)

(** Lines 34-39: [PV = CF / (1 + r)^t]. *)
Definition present_value (cash_flow rate : Q) (period : Z) : result Q :=
  discount_factor <- power (1 + rate) period ;;
  divide cash_flow discount_factor.

(** Lines 41-46: [FV = CF * (1 + r)^t]. *)
Definition future_value (cash_flow rate : Q) (period : Z) : result Q :=
  growth_factor <- power (1 + rate) period ;;
  Ok (multiply cash_flow growth_factor).

(** ** class Bond *)

Record Bond : Set := mkBond {
  face_value : Q;
  coupon_rate : Q;
  yield_to_maturity : Q;
  maturity_years : Z;
  payments_per_year : Z;
  total_periods : Z;
  periodic_coupon : Q;
  periodic_yield : Q
}.

(** Lines 55-74.  The two divisions by [payments_per_year] are the only
    statements of the constructor that can raise. *)
Definition __init__ (face_value coupon_rate yield_to_maturity : Q)
  (maturity_years payments_per_year : Z) : result Bond :=
  let total_periods := (maturity_years * payments_per_year)%Z in
  periodic_coupon <-
    truediv 72 (face_value * coupon_rate) (inject_Z payments_per_year) ;;
  periodic_yield <-
    truediv 74 yield_to_maturity (inject_Z payments_per_year) ;;
  Ok (mkBond face_value coupon_rate yield_to_maturity maturity_years
        payments_per_year total_periods periodic_coupon periodic_yield).

Section BondMethods.

Variable self : Bond.

(** Lines 76-82: [cash_flows[-1] += face_value] reads and then writes the
    last element. *)
Definition _cash_flows : result (list Q) :=
  let cash_flows := list_mul (periodic_coupon self) (total_periods self) in
  last <- getitem 81 cash_flows (-1) ;;
  setitem 81 cash_flows (-1) (last + face_value self).

(** The body of [for t, cf in enumerate(cfs, start=1): price += ...],
    from index [t] on, with the running total. *)
Fixpoint price_loop (t : Z) (cfs : list Q) (price : Q) : result Q :=
  match cfs with
  | [] => Ok price
  | cf :: rest =>
      pv <- present_value cf (periodic_yield self) t ;;
      price_loop (t + 1)%Z rest (price + pv)
  end.

(** Lines 84-91. *)
Definition price : result Q :=
  cfs <- _cash_flows ;;
  price_loop 1 cfs 0.

(** The loop of lines 102-104. *)
Fixpoint weighted_loop (t : Z) (cfs : list Q) (weighted_sum : Q)
  : result Q :=
  match cfs with
  | [] => Ok weighted_sum
  | cf :: rest =>
      pv_cf <- present_value cf (periodic_yield self) t ;;
      weighted_loop (t + 1)%Z rest (weighted_sum + inject_Z t * pv_cf)
  end.

(** Lines 93-107. *)
Definition macaulay_duration : result Q :=
  bond_price <- price ;;
  cfs <- _cash_flows ;;
  weighted_sum <- weighted_loop 1 cfs 0 ;;
  duration_in_periods <- truediv 106 weighted_sum bond_price ;;
  truediv 107 duration_in_periods (inject_Z (payments_per_year self)).

(** Lines 109-115. *)
Definition modified_duration : result Q :=
  mac_dur <- macaulay_duration ;;
  truediv 115 mac_dur (1 + periodic_yield self).

(** The loop of lines 127-129. *)
Fixpoint convexity_loop (t : Z) (cfs : list Q) (convexity_sum : Q)
  : result Q :=
  match cfs with
  | [] => Ok convexity_sum
  | cf :: rest =>
      discount <- power (1 + periodic_yield self) (t + 2) ;;
      term <- truediv 129
                (cf * inject_Z t * inject_Z (t + 1)) discount ;;
      convexity_loop (t + 1)%Z rest (convexity_sum + term)
  end.

(** Lines 117-132. *)
Definition convexity : result Q :=
  bond_price <- price ;;
  cfs <- _cash_flows ;;
  convexity_sum <- convexity_loop 1 cfs 0 ;;
  q <- truediv 132 convexity_sum bond_price ;;
  truediv 132 q (inject_Z (payments_per_year self ^ 2)).

(** Lines 135-148. *)
Definition price_percentage_change (delta_yield : Q) : result Q :=
  d_mod <- modified_duration ;;
  conv <- convexity ;;
  delta_sq <- pow 147 delta_yield 2 ;;
  Ok (- d_mod * delta_yield + (1 # 2) * conv * delta_sq).

End BondMethods.

(** The five public query methods, by name. *)
Inductive query : Set :=
| q_price
| q_macaulay_duration
| q_modified_duration
| q_convexity
| q_price_percentage_change (delta_yield : Q).

Definition run_query (self : Bond) (q : query) : result Q :=
  match q with
  | q_price => price self
  | q_macaulay_duration => macaulay_duration self
  | q_modified_duration => modified_duration self
  | q_convexity => convexity self
  | q_price_percentage_change dy => price_percentage_change self dy
  end.

(** ** Closed forms used in the proofs

    The sums that the three loops accumulate, for a non-zero discount base
    [d = 1 + periodic_yield]. *)

Fixpoint pv_sum (d : Q) (t : Z) (cfs : list Q) : Q :=
  match cfs with
  | [] => 0
  | cf :: rest => cf / d ^ t + pv_sum d (t + 1) rest
  end.

Fixpoint tpv_sum (d : Q) (t : Z) (cfs : list Q) : Q :=
  match cfs with
  | [] => 0
  | cf :: rest => inject_Z t * (cf / d ^ t) + tpv_sum d (t + 1) rest
  end.

Fixpoint cx_sum (d : Q) (t : Z) (cfs : list Q) : Q :=
  match cfs with
  | [] => 0
  | cf :: rest =>
      cf * inject_Z t * inject_Z (t + 1) / d ^ (t + 2) + cx_sum d (t + 1) rest
  end.

(** The schedule that [_cash_flows] builds when it succeeds. *)
Definition schedule (self : Bond) : list Q :=
  repeat (periodic_coupon self) (Z.to_nat (total_periods self - 1))
  ++ [periodic_coupon self + face_value self].

Definition divide_error : exn := mkExn ZeroDivisionError 21.
Definition index_error : exn := mkExn IndexError 81.

(** * Accounts of [Easy_finance.py]

    An account object is mutable: a method takes the account and returns
    the account after the call, together with the lines it printed. *)

Module BankAccount.

Record t : Set := mk { account_holder : string; balance : Q }.

(** Lines 8-10. *)
Definition __init__ (account_holder : string) (initial_balance : Q) : t :=
  mk account_holder initial_balance.

(** Lines 13-14. *)
Definition deposit (self : t) (amount : Q) : t :=
  mk (account_holder self) (balance self + amount).

(** Lines 17-21. *)
Definition withdraw (self : t) (amount : Q) : t * list string :=
  if Qle_bool amount (balance self)
  then (mk (account_holder self) (balance self - amount), [])
  else (self, ["Insufficient funds!"%string]).

(** Lines 24-25. *)
Definition check_balance (self : t) : Q := balance self.

End BankAccount.

Module SavingsAccount.

(** A savings account is a bank account with one more attribute. *)
Record t : Set := mk { base : BankAccount.t; interest_rate : Q }.

(** Lines 30-32. *)
Definition __init__ (account_holder : string)
  (initial_balance interest_rate : Q) : t :=
  mk (BankAccount.__init__ account_holder initial_balance) interest_rate.

(** The inherited methods act on the account part. *)
Definition deposit (self : t) (amount : Q) : t :=
  mk (BankAccount.deposit (base self) amount) (interest_rate self).

Definition withdraw (self : t) (amount : Q) : t * list string :=
  let (acct, out) := BankAccount.withdraw (base self) amount in
  (mk acct (interest_rate self), out).

Definition check_balance (self : t) : Q :=
  BankAccount.check_balance (base self).

(** Lines 35-36. *)
Definition apply_interest (self : t) : t :=
  let b := BankAccount.balance (base self) in
  mk (BankAccount.mk (BankAccount.account_holder (base self))
        (b + b * interest_rate self))
     (interest_rate self).

End SavingsAccount.

(** A method call on a savings account, and a sequence of calls run in
    order on the same object, collecting what is printed. *)
Inductive call : Set :=
| Deposit (amount : Q)
| Withdraw (amount : Q)
| ApplyInterest
| CheckBalance.

Definition do_call (self : SavingsAccount.t) (c : call)
  : SavingsAccount.t * list string :=
  match c with
  | Deposit amount => (SavingsAccount.deposit self amount, [])
  | Withdraw amount => SavingsAccount.withdraw self amount
  | ApplyInterest => (SavingsAccount.apply_interest self, [])
  | CheckBalance => (self, [])
  end.

Fixpoint run (self : SavingsAccount.t) (calls : list call)
  : SavingsAccount.t * list string :=
  match calls with
  | [] => (self, [])
  | c :: rest =>
      let (self1, out1) := do_call self c in
      let (self2, out2) := run self1 rest in
      (self2, out1 ++ out2)
  end.

(** The calls allowed in the invariant: no negative deposit. *)
Definition deposits_nonneg (calls : list call) : Prop :=
  forall amount, In (Deposit amount) calls -> 0 <= amount.

(** * The class [Bond] over binary64

    Floats are [spec_float] values with 53 bits of precision: signed
    zeros, finite numbers [m * 2^e], infinities and NaN, with the
    correctly rounded operations of [SpecFloat].  Arguments that the
    source annotates as [float] are floats, those annotated as [int] are
    [Z]; an [int] operand of a float operation is converted first, and
    Python raises [OverflowError] when it is too large. *)

Module Binary64.

Definition float : Set := spec_float.
Definition prec : Z := 53.
Definition emax : Z := 1024.

Definition fadd : float -> float -> float := SFadd prec emax.
Definition fmul : float -> float -> float := SFmul prec emax.
Definition fdiv : float -> float -> float := SFdiv prec emax.
Definition fneg : float -> float := SFopp.

(** Python's [==] on floats: NaN equals nothing, [-0.0 == 0.0]. *)
Definition feq : float -> float -> bool := SFeqb.

Definition zero : float := S754_zero false.
Definition of_Z (z : Z) : float := binary_normalize prec emax z 0 false.
Definition one : float := Eval compute in of_Z 1.
Definition half : float := Eval compute in fdiv (of_Z 1) (of_Z 2).

(** The float written as the decimal fraction [num / den], for [num] and
    [den] below [2^53]: the nearest float, as Python reads a literal. *)
Definition decimal (num den : Z) : float := fdiv (of_Z num) (of_Z den).

Definition is_finite (x : float) : bool :=
  match x with
  | S754_zero _ | S754_finite _ _ _ => true
  | S754_infinity _ | S754_nan => false
  end.

Definition is_infinite (x : float) : bool :=
  match x with
  | S754_infinity _ => true
  | _ => false
  end.

(** Conversion of an [int] operand, at the statement of line [line]. *)
Definition of_int (line : nat) (z : Z) : result float :=
  let x := of_Z z in
  if is_infinite x then Raise (mkExn OverflowError line) else Ok x.

(** [a / b]: division by [0.0] or [-0.0] raises; any other quotient is
    returned, [inf] and [nan] included. *)
Definition truediv (line : nat) (a b : float) : result float :=
  if feq b zero then Raise (mkExn ZeroDivisionError line)
  else Ok (fdiv a b).

(** The power [(m * 2^e)^n] of a finite non-zero float, [n <> 0], rounded
    to nearest: the value the C library's [pow] is taken to return. *)
Definition pow_finite (s : bool) (m : positive) (e n : Z) : float :=
  let M := Pos.pow m (Z.to_pos (Z.abs n)) in
  let E := (e * Z.abs n)%Z in
  let sgn := s && Z.odd n in
  if (0 <? n)%Z then binary_round prec emax sgn M E
  else
    let '(mz, ez, lz) := SFdiv_core_binary prec emax 1 0 (Zpos M) E in
    binary_round_aux prec emax sgn mz ez lz.

(** [base ** exponent] for a float base and an [int] exponent, with the
    interpreter's cases: anything to the power 0 is 1; NaN stays NaN; zero
    to a negative power raises [ZeroDivisionError]; a result that
    overflows raises [OverflowError]; a result that underflows is
    returned, down to [0.0]. *)
Definition pow (line : nat) (base : float) (exponent : Z) : result float :=
  if (exponent =? 0)%Z then Ok one
  else
    match base with
    | S754_nan => Ok S754_nan
    | S754_infinity s =>
        if (0 <? exponent)%Z then Ok (S754_infinity (s && Z.odd exponent))
        else Ok (S754_zero (s && Z.odd exponent))
    | S754_zero s =>
        if (exponent <? 0)%Z then Raise (mkExn ZeroDivisionError line)
        else Ok (S754_zero (s && Z.odd exponent))
    | S754_finite s m e =>
        let r := pow_finite s m e exponent in
        if is_infinite r then Raise (mkExn OverflowError line) else Ok r
    end.

(** Lines 19-22. *)
Definition divide (a b : float) : result float :=
  if feq b zero then Raise (mkExn ZeroDivisionError 21)
  else truediv 22 a b.

(** Lines 24-25. *)
Definition power (base : float) (exponent : Z) : result float :=
  pow 25 base exponent.

(** Lines 34-39. *)
Definition present_value (cash_flow rate : float) (period : Z)
  : result float :=
  discount_factor <- power (fadd one rate) period ;;
  divide cash_flow discount_factor.

Record Bond : Set := mkBond {
  face_value : float;
  coupon_rate : float;
  yield_to_maturity : float;
  maturity_years : Z;
  payments_per_year : Z;
  total_periods : Z;
  periodic_coupon : float;
  periodic_yield : float
}.

(** Lines 55-74. *)
Definition __init__ (face_value coupon_rate yield_to_maturity : float)
  (maturity_years payments_per_year : Z) : result Bond :=
  let total_periods := (maturity_years * payments_per_year)%Z in
  m1 <- of_int 72 payments_per_year ;;
  periodic_coupon <- truediv 72 (fmul face_value coupon_rate) m1 ;;
  m2 <- of_int 74 payments_per_year ;;
  periodic_yield <- truediv 74 yield_to_maturity m2 ;;
  Ok (mkBond face_value coupon_rate yield_to_maturity maturity_years
        payments_per_year total_periods periodic_coupon periodic_yield).

(** Lines 76-82. *)
Definition _cash_flows (self : Bond) : result (list float) :=
  let cash_flows := list_mul (periodic_coupon self) (total_periods self) in
  last <- getitem 81 cash_flows (-1) ;;
  setitem 81 cash_flows (-1) (fadd last (face_value self)).

(** The loop of lines 89-90. *)
Fixpoint price_loop (self : Bond) (t : Z) (cfs : list float) (price : float)
  : result float :=
  match cfs with
  | [] => Ok price
  | cf :: rest =>
      pv <- present_value cf (periodic_yield self) t ;;
      price_loop self (t + 1)%Z rest (fadd price pv)
  end.

(** Lines 84-91. *)
Definition price (self : Bond) : result float :=
  cfs <- _cash_flows self ;;
  price_loop self 1 cfs zero.

(** The loop of lines 102-104. *)
Fixpoint weighted_loop (self : Bond) (t : Z) (cfs : list float)
  (weighted_sum : float) : result float :=
  match cfs with
  | [] => Ok weighted_sum
  | cf :: rest =>
      pv_cf <- present_value cf (periodic_yield self) t ;;
      tf <- of_int 104 t ;;
      weighted_loop self (t + 1)%Z rest (fadd weighted_sum (fmul tf pv_cf))
  end.

(** Lines 93-107. *)
Definition macaulay_duration (self : Bond) : result float :=
  bond_price <- price self ;;
  cfs <- _cash_flows self ;;
  weighted_sum <- weighted_loop self 1 cfs zero ;;
  duration_in_periods <- truediv 106 weighted_sum bond_price ;;
  m <- of_int 107 (payments_per_year self) ;;
  truediv 107 duration_in_periods m.

(** Lines 109-115. *)
Definition modified_duration (self : Bond) : result float :=
  mac_dur <- macaulay_duration self ;;
  truediv 115 mac_dur (fadd one (periodic_yield self)).

(** The loop of lines 127-129. *)
Fixpoint convexity_loop (self : Bond) (t : Z) (cfs : list float)
  (convexity_sum : float) : result float :=
  match cfs with
  | [] => Ok convexity_sum
  | cf :: rest =>
      discount <- power (fadd one (periodic_yield self)) (t + 2) ;;
      tf <- of_int 129 t ;;
      tf1 <- of_int 129 (t + 1) ;;
      term <- truediv 129 (fmul (fmul cf tf) tf1) discount ;;
      convexity_loop self (t + 1)%Z rest (fadd convexity_sum term)
  end.

(** Lines 117-132. *)
Definition convexity (self : Bond) : result float :=
  bond_price <- price self ;;
  cfs <- _cash_flows self ;;
  convexity_sum <- convexity_loop self 1 cfs zero ;;
  q <- truediv 132 convexity_sum bond_price ;;
  m2 <- of_int 132 (payments_per_year self ^ 2) ;;
  truediv 132 q m2.

(** Lines 135-148. *)
Definition price_percentage_change (self : Bond) (delta_yield : float)
  : result float :=
  d_mod <- modified_duration self ;;
  conv <- convexity self ;;
  delta_sq <- pow 147 delta_yield 2 ;;
  Ok (fadd (fmul (fneg d_mod) delta_yield)
        (fmul (fmul half conv) delta_sq)).

End Binary64.

(** * Properties *)

(** ** Primitives *)

Lemma inject_Z_nonzero (k : Z) : k <> 0%Z -> ~ inject_Z k == 0.
Proof.
  intros Hk E. apply Hk. unfold Qeq in E. simpl in E. lia.
Qed.

Lemma truediv_ok (line : nat) (a b : Q) :
  ~ b == 0 -> truediv line a b = Ok (a / b).
Proof.
  intros Hb. unfold truediv.
  destruct (Qeq_bool b 0) eqn:E; [|reflexivity].
  apply Qeq_bool_eq in E. contradiction.
Qed.


Lemma divide_ok (a b : Q) : ~ b == 0 -> divide a b = Ok (a / b).
Proof.
  intros Hb. unfold divide.
  destruct (Qeq_bool b 0) eqn:E.
  - apply Qeq_bool_eq in E. contradiction.
  - now apply truediv_ok.
Qed.

Lemma divide_zero (a b : Q) : b == 0 -> divide a b = Raise divide_error.
Proof.
  intros Hb. unfold divide. now rewrite (Qeq_eq_bool _ _ Hb).
Qed.

Lemma pow_nonneg (line : nat) (base : Q) (e : Z) :
  (0 <= e)%Z -> pow line base e = Ok (base ^ e).
Proof.
  intros He. unfold pow.
  replace (e <? 0)%Z with false by (symmetry; apply Z.ltb_ge; exact He).
  now rewrite andb_false_r.
Qed.

Lemma zero_base_power (d : Q) (t : Z) : d == 0 -> (1 <= t)%Z -> d ^ t == 0.
Proof.
  intros Hd Ht. rewrite Hd. apply Qpower_0. lia.
Qed.

Lemma present_value_ok (cf r : Q) (t : Z) :
  ~ 1 + r == 0 -> (0 <= t)%Z ->
  present_value cf r t = Ok (cf / (1 + r) ^ t).
Proof.
  intros Hd Ht. unfold present_value, power.
  rewrite pow_nonneg by exact Ht. simpl.
  apply divide_ok. now apply Qpower_not_0.
Qed.

Lemma present_value_zero_base (cf r : Q) (t : Z) :
  1 + r == 0 -> (1 <= t)%Z ->
  present_value cf r t = Raise divide_error.
Proof.
  intros Hd Ht. unfold present_value, power.
  rewrite pow_nonneg by lia. simpl.
  apply divide_zero. now apply zero_base_power.
Qed.

(** ** The cash-flow schedule *)

Lemma nth_error_repeat_lt (A : Type) (x : A) (n k : nat) :
  (k < n)%nat -> nth_error (repeat x n) k = Some x.
Proof.
  revert k. induction n as [|n IH]; intros k Hk; [lia|].
  destruct k as [|k]; simpl; [reflexivity|]. apply IH. lia.
Qed.

Lemma set_nth_repeat_last (A : Type) (x v : A) (k : nat) :
  set_nth (repeat x (S k)) k v = repeat x k ++ [v].
Proof.
  induction k as [|k IH]; [reflexivity|].
  change (repeat x (S (S k))) with (x :: repeat x (S k)).
  simpl set_nth. simpl repeat at 1. simpl app. f_equal. exact IH.
Qed.

Lemma cash_flows_ok (self : Bond) :
  (1 <= total_periods self)%Z -> _cash_flows self = Ok (schedule self).
Proof.
  intros HN. unfold _cash_flows, schedule, list_mul, getitem, setitem, norm_index.
  rewrite repeat_length.
  set (N := total_periods self) in *.
  replace (-1 <? 0)%Z with true by reflexivity.
  rewrite Z2Nat.id by lia.
  replace ((0 <=? -1 + N) && (-1 + N <? N))%Z with true
    by (symmetry; apply andb_true_iff; split;
        [apply Z.leb_le | apply Z.ltb_lt]; lia).
  rewrite nth_error_repeat_lt by lia. simpl bind.
  replace (Z.to_nat N) with (S (Z.to_nat (-1 + N))) by lia.
  rewrite set_nth_repeat_last.
  replace (N - 1)%Z with (-1 + N)%Z by lia. reflexivity.
Qed.

Lemma cash_flows_raise (self : Bond) :
  (total_periods self <= 0)%Z -> _cash_flows self = Raise index_error.
Proof.
  intros HN. unfold _cash_flows, list_mul, getitem, norm_index.
  rewrite repeat_length.
  replace (Z.to_nat (total_periods self)) with O by lia.
  reflexivity.
Qed.

Lemma schedule_length (self : Bond) :
  (1 <= total_periods self)%Z ->
  Z.of_nat (length (schedule self)) = total_periods self.
Proof.
  intros HN. unfold schedule.
  rewrite length_app, repeat_length. simpl. lia.
Qed.

(** ** The three accumulation loops *)

Section Loops.

Variable self : Bond.
Let d : Q := 1 + periodic_yield self.

Lemma price_loop_ok (cfs : list Q) :
  ~ d == 0 -> forall t acc, (0 <= t)%Z ->
  exists p, price_loop self t cfs acc = Ok p /\ p == acc + pv_sum d t cfs.
Proof.
  intros Hd. induction cfs as [|cf rest IH]; intros t acc Ht; simpl.
  - exists acc. split; [reflexivity|ring].
  - rewrite present_value_ok by assumption. simpl bind.
    destruct (IH (t + 1)%Z (acc + cf / (1 + periodic_yield self) ^ t))
      as [p [Hp Hq]]; [lia|].
    exists p. split; [exact Hp|]. rewrite Hq. fold d. ring.
Qed.

Lemma weighted_loop_ok (cfs : list Q) :
  ~ d == 0 -> forall t acc, (0 <= t)%Z ->
  exists w, weighted_loop self t cfs acc = Ok w /\ w == acc + tpv_sum d t cfs.
Proof.
  intros Hd. induction cfs as [|cf rest IH]; intros t acc Ht; simpl.
  - exists acc. split; [reflexivity|ring].
  - rewrite present_value_ok by assumption. simpl bind.
    destruct (IH (t + 1)%Z
                (acc + inject_Z t * (cf / (1 + periodic_yield self) ^ t)))
      as [w [Hw Hq]]; [lia|].
    exists w. split; [exact Hw|]. rewrite Hq. fold d. ring.
Qed.

Lemma convexity_loop_ok (cfs : list Q) :
  ~ d == 0 -> forall t acc, (0 <= t)%Z ->
  exists s, convexity_loop self t cfs acc = Ok s /\ s == acc + cx_sum d t cfs.
Proof.
  intros Hd. induction cfs as [|cf rest IH]; intros t acc Ht; simpl.
  - exists acc. split; [reflexivity|ring].
  - unfold power. rewrite pow_nonneg by lia. simpl bind.
    rewrite truediv_ok by (apply Qpower_not_0; exact Hd). simpl bind.
    destruct (IH (t + 1)%Z
                (acc + cf * inject_Z t * inject_Z (t + 1)
                       / (1 + periodic_yield self) ^ (t + 2)))
      as [s [Hs Hq]]; [lia|].
    exists s. split; [exact Hs|]. rewrite Hq. fold d. ring.
Qed.

Lemma price_loop_zero_base (cf : Q) (rest : list Q) (t : Z) (acc : Q) :
  d == 0 -> (1 <= t)%Z ->
  price_loop self t (cf :: rest) acc = Raise divide_error.
Proof.
  intros Hd Ht. simpl. now rewrite present_value_zero_base.
Qed.

End Loops.

Lemma schedule_cons (self : Bond) :
  exists cf rest, schedule self = cf :: rest.
Proof.
  unfold schedule.
  destruct (Z.to_nat (total_periods self - 1)); simpl; eauto.
Qed.

(** ** Outcome of every query, case by case *)

Section Outcomes.

Variable self : Bond.
Let d : Q := 1 + periodic_yield self.
Let m : Q := inject_Z (payments_per_year self).

Lemma queries_no_periods (q : query) :
  (total_periods self <= 0)%Z -> run_query self q = Raise index_error.
Proof.
  intros HN.
  assert (Hp : price self = Raise index_error)
    by (unfold price; now rewrite cash_flows_raise).
  assert (Hmac : macaulay_duration self = Raise index_error)
    by (unfold macaulay_duration; now rewrite Hp).
  assert (Hmod : modified_duration self = Raise index_error)
    by (unfold modified_duration; now rewrite Hmac).
  assert (Hcx : convexity self = Raise index_error)
    by (unfold convexity; now rewrite Hp).
  destruct q; simpl; try assumption.
  unfold price_percentage_change. now rewrite Hmod.
Qed.

Lemma price_zero_base :
  (1 <= total_periods self)%Z -> d == 0 ->
  price self = Raise divide_error.
Proof.
  intros HN Hd. unfold price. rewrite cash_flows_ok by exact HN. simpl bind.
  destruct (schedule_cons self) as [cf [rest ->]].
  apply price_loop_zero_base; [exact Hd|lia].
Qed.


Lemma price_value :
  (1 <= total_periods self)%Z -> ~ d == 0 ->
  exists p, price self = Ok p /\ p == pv_sum d 1 (schedule self).
Proof.
  intros HN Hd. unfold price. rewrite cash_flows_ok by exact HN. simpl bind.
  destruct (price_loop_ok self (schedule self) Hd 1 0) as [p [Hp Hq]]; [lia|].
  exists p. split; [exact Hp|]. rewrite Hq. fold d. ring.
Qed.

(** A price that is returned at all comes from a non-empty schedule and a
    non-zero discount base. *)
Lemma price_ok_inv (p : Q) :
  price self = Ok p -> (1 <= total_periods self)%Z /\ ~ d == 0.
Proof.
  intros Hp.
  destruct (Z_le_gt_dec 1 (total_periods self)) as [HN|HN].
  - split; [exact HN|]. intros Hd.
    rewrite (price_zero_base HN Hd) in Hp. discriminate.
  - pose proof (queries_no_periods q_price) as H. simpl in H.
    rewrite H in Hp by lia. discriminate.
Qed.


Lemma queries_defined (p : Q) :
  payments_per_year self <> 0%Z ->
  price self = Ok p -> ~ p == 0 ->
  exists w s,
    w == tpv_sum d 1 (schedule self)
    /\ s == cx_sum d 1 (schedule self)
    /\ macaulay_duration self = Ok (w / p / m)
    /\ modified_duration self = Ok (w / p / m / d)
    /\ convexity self
       = Ok (s / p / inject_Z (payments_per_year self ^ 2))
    /\ forall dy, price_percentage_change self dy
         = Ok (- (w / p / m / d) * dy
               + (1 # 2) * (s / p / inject_Z (payments_per_year self ^ 2))
                 * dy ^ 2).
Proof.
  intros Hm Hp Hnz. destruct (price_ok_inv p Hp) as [HN Hd].
  destruct (weighted_loop_ok self (schedule self) Hd 1 0) as [w [Hw Hwq]];
    [lia|].
  destruct (convexity_loop_ok self (schedule self) Hd 1 0) as [s [Hs Hsq]];
    [lia|].
  assert (HmQ : ~ m == 0) by (apply inject_Z_nonzero; exact Hm).
  assert (Hm2 : ~ inject_Z (payments_per_year self ^ 2) == 0)
    by (apply inject_Z_nonzero; nia).
  assert (Hmac : macaulay_duration self = Ok (w / p / m)).
  { unfold macaulay_duration. rewrite Hp, cash_flows_ok by exact HN.
    simpl bind. rewrite Hw. simpl bind.
    rewrite truediv_ok by exact Hnz. simpl bind.
    now rewrite truediv_ok. }
  assert (Hmod : modified_duration self = Ok (w / p / m / d)).
  { unfold modified_duration. rewrite Hmac. simpl bind.
    now rewrite truediv_ok. }
  assert (Hcx : convexity self
                = Ok (s / p / inject_Z (payments_per_year self ^ 2))).
  { unfold convexity. rewrite Hp, cash_flows_ok by exact HN.
    simpl bind. rewrite Hs. simpl bind.
    rewrite truediv_ok by exact Hnz. simpl bind.
    now rewrite truediv_ok. }
  exists w, s.
  split; [rewrite Hwq; unfold d; ring|].
  split; [rewrite Hsq; unfold d; ring|].
  split; [exact Hmac|]. split; [exact Hmod|]. split; [exact Hcx|].
  intros dy. unfold price_percentage_change.
    rewrite Hmod, Hcx. simpl bind. rewrite pow_nonneg by lia. reflexivity.
Qed.

End Outcomes.

(** ** Construction *)

Lemma init_inv (f c y : Q) (n k : Z) (b : Bond) :
  __init__ f c y n k = Ok b ->
  k <> 0%Z
  /\ b = mkBond f c y n k (n * k) (f * c / inject_Z k) (y / inject_Z k).
Proof.
  unfold __init__, truediv. intros H.
  destruct (Qeq_bool (inject_Z k) 0) eqn:E; simpl in H; [discriminate|].
  split.
  - intros ->. discriminate.
  - now injection H as <-.
Qed.

Lemma init_ok (f c y : Q) (n k : Z) :
  k <> 0%Z ->
  __init__ f c y n k
  = Ok (mkBond f c y n k (n * k) (f * c / inject_Z k) (y / inject_Z k)).
Proof.
  intros Hk. unfold __init__.
  pose proof (inject_Z_nonzero k Hk) as HkQ.
  now rewrite !truediv_ok.
Qed.

(** ** [divide] *)

(** C6. [divide x b] with a zero divisor raises the division-by-zero error
    of the guard and returns no value; with a non-zero divisor it returns
    the quotient [a / b]. *)
Theorem divide_guard (a b : Q) :
  (b == 0 -> divide a b = Raise (mkExn ZeroDivisionError 21))
  /\ (~ b == 0 -> divide a b = Ok (a / b)).
Proof.
  split; intros Hb.
  - now apply divide_zero.
  - now apply divide_ok.
Qed.

Lemma divide_guard_witness :
  divide 7 0 = Raise (mkExn ZeroDivisionError 21)
  /\ divide 7 2 = Ok (7 / 2).
Proof.
  split.
  - apply (proj1 (divide_guard 7 0)). reflexivity.
  - apply (proj2 (divide_guard 7 2)). discriminate.
Defined.

(** ** Construction *)

(** C9. With [payments_per_year = 0] the constructor raises a
    division-by-zero error at the statement that derives the periodic
    coupon (line 72); with any other value it returns the bond, whatever
    the rates and the maturity are. *)
Theorem init_validation (f c y : Q) (n : Z) :
  __init__ f c y n 0 = Raise (mkExn ZeroDivisionError 72)
  /\ forall k : Z, k <> 0%Z ->
       __init__ f c y n k
       = Ok (mkBond f c y n k (n * k) (f * c / inject_Z k) (y / inject_Z k)).
Proof.
  split.
  - reflexivity.
  - intros k Hk. now apply init_ok.
Qed.

Lemma init_validation_witness :
  __init__ 1000 (-1 # 20) (-1 # 10) (-3) 0 = Raise (mkExn ZeroDivisionError 72)
  /\ __init__ 1000 (-1 # 20) (-1 # 10) (-3) 2
     = Ok (mkBond 1000 (-1 # 20) (-1 # 10) (-3) 2 (-3 * 2)
             (1000 * (-1 # 20) / inject_Z 2) ((-1 # 10) / inject_Z 2))
  /\ __init__ 1000 (1 # 20) (1 # 10) 0 2
     = Ok (mkBond 1000 (1 # 20) (1 # 10) 0 2 (0 * 2)
             (1000 * (1 # 20) / inject_Z 2) ((1 # 10) / inject_Z 2)).
Proof.
  split; [|split].
  - apply (proj1 (init_validation 1000 (-1 # 20) (-1 # 10) (-3))).
  - apply (proj2 (init_validation 1000 (-1 # 20) (-1 # 10) (-3)) 2%Z).
    discriminate.
  - apply (proj2 (init_validation 1000 (1 # 20) (1 # 10) 0) 2%Z).
    discriminate.
Defined.

(** ** The cash-flow schedule *)

(** C3. When [total_periods >= 1] the cash-flow helper returns exactly
    [total_periods] entries; every entry but the last is the periodic
    coupon [face_value * coupon_rate / payments_per_year], and the last is
    the periodic coupon plus the face value. *)
Theorem cash_flows_schedule (f c y : Q) (n k : Z) (b : Bond) :
  __init__ f c y n k = Ok b ->
  (1 <= n * k)%Z ->
  exists cfs : list Q,
    _cash_flows b = Ok cfs
    /\ Z.of_nat (length cfs) = (n * k)%Z
    /\ (forall i : nat, (i < length cfs - 1)%nat ->
          nth_error cfs i = Some (f * c / inject_Z k))
    /\ nth_error cfs (length cfs - 1) = Some (f * c / inject_Z k + f).
Proof.
  intros Hb HN. destruct (init_inv _ _ _ _ _ _ Hb) as [Hk ->].
  exists (schedule (mkBond f c y n k (n * k) (f * c / inject_Z k)
                      (y / inject_Z k))).
  split; [now apply cash_flows_ok|].
  split; [now apply schedule_length|].
  unfold schedule. simpl.
  set (pc := f * c / inject_Z k). set (r := Z.to_nat (n * k - 1)).
  rewrite length_app, repeat_length. simpl length.
  replace (r + 1 - 1)%nat with r by lia.
  split.
  - intros i Hi. rewrite nth_error_app1 by (rewrite repeat_length; exact Hi).
    now apply nth_error_repeat_lt.
  - rewrite nth_error_app2 by (rewrite repeat_length; lia).
    rewrite repeat_length, Nat.sub_diag. reflexivity.
Qed.

Lemma cash_flows_schedule_witness :
  exists cfs : list Q,
    (b <- __init__ 1000 (6 # 100) (8 # 100) 5 2 ;; _cash_flows b) = Ok cfs
    /\ Z.of_nat (length cfs) = 10%Z
    /\ (forall i : nat, (i < length cfs - 1)%nat ->
          nth_error cfs i = Some (1000 * (6 # 100) / inject_Z 2))
    /\ nth_error cfs (length cfs - 1)
       = Some (1000 * (6 # 100) / inject_Z 2 + 1000).
Proof.
  apply (cash_flows_schedule 1000 (6 # 100) (8 # 100) 5 2 _ eq_refl).
  vm_compute. discriminate.
Defined.

(** C10. When [total_periods = 0] the cash-flow helper indexes the last
    element of an empty list: it raises an index error (line 81), and so
    does every query method. *)
Theorem no_periods_index_error (f c y : Q) (n k : Z) (b : Bond) :
  __init__ f c y n k = Ok b ->
  (n * k)%Z = 0%Z ->
  _cash_flows b = Raise (mkExn IndexError 81)
  /\ forall q : query, run_query b q = Raise (mkExn IndexError 81).
Proof.
  intros Hb HN. destruct (init_inv _ _ _ _ _ _ Hb) as [Hk ->].
  split.
  - apply cash_flows_raise. simpl. lia.
  - intros q. apply queries_no_periods. simpl. lia.
Qed.

Lemma no_periods_index_error_witness :
  (b <- __init__ 1000 (6 # 100) (8 # 100) 0 1 ;; _cash_flows b)
  = Raise (mkExn IndexError 81)
  /\ forall q : query,
       (b <- __init__ 1000 (6 # 100) (8 # 100) 0 1 ;; run_query b q)
       = Raise (mkExn IndexError 81).
Proof.
  apply (no_periods_index_error 1000 (6 # 100) (8 # 100) 0 1 _ eq_refl).
  reflexivity.
Defined.

(** ** Failures of the query methods *)




(** ** Price sensitivity *)

(** X19. In exact arithmetic (floats idealised as exact rationals, so
    without infinities and NaN), on a bond whose price is defined and
    non-zero [price_percentage_change(0)] returns a value, and that value
    is 0.  In binary64 the result can be NaN; see the last section. *)
Theorem no_shift_no_change (f c y : Q) (n k : Z) (b : Bond) (p : Q) :
  __init__ f c y n k = Ok b ->
  price b = Ok p ->
  ~ p == 0 ->
  exists r : Q, price_percentage_change b 0 = Ok r /\ r == 0.
Proof.
  intros Hb Hp Hz. destruct (init_inv _ _ _ _ _ _ Hb) as [Hk E].
  assert (Hk' : payments_per_year b <> 0%Z) by (rewrite E; exact Hk).
  destruct (queries_defined b p Hk' Hp Hz)
    as [w [s [_ [_ [_ [_ [_ Hppc]]]]]]].
  eexists. split; [apply Hppc|]. ring.
Qed.

Lemma no_shift_no_change_witness :
  exists r : Q,
    (b <- __init__ 1000 (6 # 100) (8 # 100) 5 1 ;;
     price_percentage_change b 0) = Ok r
    /\ r == 0.
Proof.
  refine (no_shift_no_change 1000 (6 # 100) (8 # 100) 5 1 _ _ eq_refl _ _).
  - vm_compute. reflexivity.
  - vm_compute. discriminate.
Defined.

(** ** The worked example *)

(** C5, as stated, fails on its last figure: the duration-and-convexity
    estimate for a one-point yield rise is about -0.0400; it is more than
    0.001 away from -0.0411. *)
Lemma worked_example_counterexample :
  exists b r,
    __init__ 1000 (6 # 100) (8 # 100) 5 1 = Ok b
    /\ price_percentage_change b (1 # 100) = Ok r
    /\ (-411 # 10000) + (1 # 1000) < r
    /\ ~ approx (price_percentage_change b (1 # 100))
           (-411 # 10000) (5 # 100000).
Proof.
  eexists. eexists. split; [reflexivity|].
  split; [vm_compute; reflexivity|].
  split; [vm_compute; reflexivity|].
  vm_compute. intros [_ H]. apply H. reflexivity.
Qed.

(** C5, amended.  For the bond with face value 1000, coupon 6%, yield 8%,
    5 years and one payment per year: price is 920.15, Macaulay duration
    4.44 and modified duration 4.11 to two decimals, and
    [price_percentage_change(0.01)] is -0.0400 to four decimals. *)
Theorem worked_example :
  exists b,
    __init__ 1000 (6 # 100) (8 # 100) 5 1 = Ok b
    /\ approx (price b) (92015 # 100) (5 # 1000)
    /\ approx (macaulay_duration b) (444 # 100) (5 # 1000)
    /\ approx (modified_duration b) (411 # 100) (5 # 1000)
    /\ approx (price_percentage_change b (1 # 100))
         (-400 # 10000) (5 # 100000).
Proof.
  eexists. split; [reflexivity|].
  repeat split; vm_compute; discriminate.
Qed.

(** ** Agreement of results *)

Lemma req_refl (r : result Q) : req r r.
Proof. destruct r; simpl; reflexivity. Qed.

Lemma req_trans (r1 r2 r3 : result Q) : req r1 r2 -> req r2 r3 -> req r1 r3.
Proof.
  destruct r1, r2, r3; simpl; try tauto.
  - intros H1 H2. now rewrite H1.
  - congruence.
Qed.

Lemma Qeq_bool_zero_compat (a b : Q) : a == b -> Qeq_bool a 0 = Qeq_bool b 0.
Proof.
  intros E. destruct (Qeq_bool b 0) eqn:Eb.
  - apply Qeq_eq_bool. rewrite E. now apply Qeq_bool_eq.
  - destruct (Qeq_bool a 0) eqn:Ea; [|reflexivity].
    apply Qeq_bool_eq in Ea. rewrite E in Ea.
    apply Qeq_eq_bool in Ea. congruence.
Qed.

Lemma present_value_compat (cf r1 r2 : Q) (t : Z) :
  r1 == r2 -> req (present_value cf r1 t) (present_value cf r2 t).
Proof.
  intros E. assert (Ed : 1 + r1 == 1 + r2) by now rewrite E.
  unfold present_value, power, pow.
  rewrite (Qeq_bool_zero_compat _ _ Ed).
  destruct (Qeq_bool (1 + r2) 0 && (t <? 0)%Z); simpl; [reflexivity|].
  assert (Ep : (1 + r1) ^ t == (1 + r2) ^ t) by now rewrite Ed.
  unfold divide, truediv. rewrite (Qeq_bool_zero_compat _ _ Ep).
  destruct (Qeq_bool ((1 + r2) ^ t) 0); simpl; [reflexivity|].
  now rewrite Ep.
Qed.

(** ** Closed forms of the price *)

Lemma power_succ (d : Q) (t : Z) : ~ d == 0 -> d ^ (t + 1) == d ^ t * d.
Proof.
  intros Hd. rewrite Qpower_plus by exact Hd. now rewrite Qpower_1_r.
Qed.

(** With a zero coupon only the principal is discounted. *)
Lemma pv_sum_zero_coupon (d pc F : Q) :
  ~ d == 0 -> pc == 0 ->
  forall (k : nat) (t : Z),
    pv_sum d t (repeat pc k ++ [pc + F]) == F / d ^ (t + Z.of_nat k).
Proof.
  intros Hd Hpc. induction k as [|k IH]; intros t.
  - simpl. rewrite Z.add_0_r, Hpc.
    field. now apply Qpower_not_0.
  - change (pv_sum d t (repeat pc (S k) ++ [pc + F]))
      with (pc / d ^ t + pv_sum d (t + 1) (repeat pc k ++ [pc + F])).
    rewrite IH, Hpc.
    replace (t + Z.of_nat (S k))%Z with (t + 1 + Z.of_nat k)%Z by lia.
    field; repeat split; (assumption || now apply Qpower_not_0).
Qed.


(** ** Signs of the sums *)

Lemma pv_sum_sign (s d : Q) (cfs : list Q) :
  0 < d -> (forall cf, In cf cfs -> 0 <= s * cf) ->
  forall t, 0 <= s * pv_sum d t cfs.
Proof.
  intros Hd. induction cfs as [|cf rest IH]; intros Hall t; simpl.
  - rewrite Qmult_0_r. apply Qle_refl.
  - assert (H1 : 0 <= s * cf) by (apply Hall; now left).
    assert (H2 : 0 <= s * pv_sum d (t + 1) rest)
      by (apply IH; intros x Hx; apply Hall; now right).
    assert (H3 : 0 <= s * cf / d ^ t)
      by (apply Qle_shift_div_l;
          [now apply Qpower_0_lt | now rewrite Qmult_0_l]).
    setoid_replace (s * (cf / d ^ t + pv_sum d (t + 1) rest))
      with (s * cf / d ^ t + s * pv_sum d (t + 1) rest)
      by (field; apply Qpower_not_0; lra).
    lra.
Qed.

Lemma tpv_sum_sign (s d : Q) (cfs : list Q) :
  0 < d -> (forall cf, In cf cfs -> 0 <= s * cf) ->
  forall t, (0 <= t)%Z -> 0 <= s * tpv_sum d t cfs.
Proof.
  intros Hd. induction cfs as [|cf rest IH]; intros Hall t Ht; simpl.
  - rewrite Qmult_0_r. apply Qle_refl.
  - assert (H1 : 0 <= s * cf) by (apply Hall; now left).
    assert (H2 : 0 <= s * tpv_sum d (t + 1) rest)
      by (apply IH; [intros x Hx; apply Hall; now right | lia]).
    assert (H3 : 0 <= s * cf / d ^ t)
      by (apply Qle_shift_div_l;
          [now apply Qpower_0_lt | now rewrite Qmult_0_l]).
    assert (H4 : 0 <= inject_Z t)
      by (change 0 with (inject_Z 0); now rewrite <- Zle_Qle).
    setoid_replace (s * (inject_Z t * (cf / d ^ t) + tpv_sum d (t + 1) rest))
      with (inject_Z t * (s * cf / d ^ t) + s * tpv_sum d (t + 1) rest)
      by (field; apply Qpower_not_0; lra).
    pose proof (Qmult_le_0_compat _ _ H4 H3). lra.
Qed.

Lemma quotient_nonneg (w p : Q) : 0 <= w * p -> ~ p == 0 -> 0 <= w / p.
Proof.
  intros Hwp Hp.
  setoid_replace (w / p) with (w * p * (/ p) ^ 2) by (field; exact Hp).
  apply Qmult_le_0_compat; [exact Hwp | apply Qsqr_nonneg].
Qed.

Lemma schedule_sign (s : Q) (b : Bond) :
  0 <= s * periodic_coupon b -> 0 <= s * face_value b ->
  forall cf, In cf (schedule b) -> 0 <= s * cf.
Proof.
  intros Hpc Hf cf Hin. unfold schedule in Hin.
  apply in_app_or in Hin. destruct Hin as [Hin|[<-|[]]].
  - apply repeat_spec in Hin. now subst cf.
  - lra.
Qed.

(** ** Zero-coupon price *)

(** C1, as stated, fails for [payments_per_year = 2]: a zero-coupon bond
    of face value 900 at a yield of 100% over one year is priced at
    900 / 1.5^2 = 400, while [present_value(900, 1, 1)] is 450. *)
Lemma zero_coupon_counterexample :
  exists b p v,
    __init__ 900 0 1 1 2 = Ok b
    /\ price b = Ok p /\ p == 400
    /\ present_value 900 1 1 = Ok v /\ v == 450
    /\ ~ req (price b) (present_value 900 1 1).
Proof.
  do 3 eexists. split; [reflexivity|].
  split; [vm_compute; reflexivity|]. split; [reflexivity|].
  split; [vm_compute; reflexivity|]. split; [reflexivity|].
  vm_compute. discriminate.
Qed.

(** C1, amended.  For a zero-coupon bond with at least one period,
    [price()] agrees with
    [present_value(face_value, periodic_yield, total_periods)]: the face
    value discounted at the per-period yield over the number of periods.
    With [payments_per_year = 1] that is
    [present_value(face_value, yield_to_maturity, maturity_years)]. *)
Theorem zero_coupon_price (f y : Q) (n k : Z) (b : Bond) :
  __init__ f 0 y n k = Ok b ->
  (1 <= n * k)%Z ->
  req (price b) (present_value f (y / inject_Z k) (n * k))
  /\ (k = 1%Z -> req (price b) (present_value f y n)).
Proof.
  intros Hb HN. destruct (init_inv _ _ _ _ _ _ Hb) as [Hk ->].
  set (b := mkBond f 0 y n k (n * k) (f * 0 / inject_Z k) (y / inject_Z k)).
  assert (HN1 : (1 <= total_periods b)%Z) by exact HN.
  assert (Hmain : req (price b) (present_value f (y / inject_Z k) (n * k))).
  { destruct (Qeq_dec (1 + periodic_yield b) 0) as [Hd|Hd].
    - rewrite (price_zero_base b HN1 Hd).
      rewrite present_value_zero_base by assumption. reflexivity.
    - destruct (price_value b HN1 Hd) as [p [Hp Hq]].
      rewrite Hp, present_value_ok by (assumption || lia). simpl.
      rewrite Hq. unfold schedule.
      rewrite pv_sum_zero_coupon.
      + replace (1 + Z.of_nat (Z.to_nat (total_periods b - 1)))%Z
          with (n * k)%Z by (unfold b; cbn [total_periods]; lia).
        reflexivity.
      + exact Hd.
      + unfold b. cbn [periodic_coupon]. field. now apply inject_Z_nonzero. }
  split; [exact Hmain|].
  intros ->. apply (req_trans _ _ _ Hmain).
  rewrite Z.mul_1_r. apply present_value_compat.
  change (inject_Z 1) with 1. field.
Qed.

Lemma zero_coupon_price_witness :
  req (b <- __init__ 900 0 1 1 2 ;; price b)
      (present_value 900 (1 / inject_Z 2) (1 * 2))
  /\ (2%Z = 1%Z ->
      req (b <- __init__ 900 0 1 1 2 ;; price b) (present_value 900 1 1)).
Proof.
  apply (zero_coupon_price 900 1 1 2 _ eq_refl). vm_compute. discriminate.
Defined.

(** ** Price at par *)




(** ** Durations *)

(** C7, as stated, fails for a negative coupon rate: with face value 800,
    coupon -37.5%, yield 100%, two annual periods, the price is -25, the
    Macaulay duration is -4 and the modified duration is -2, which is
    greater. *)
Lemma duration_order_counterexample :
  exists b p mac md,
    __init__ 800 (-3 # 8) 1 2 1 = Ok b
    /\ 0 <= yield_to_maturity b
    /\ price b = Ok p /\ p == -25
    /\ macaulay_duration b = Ok mac /\ mac == -4
    /\ modified_duration b = Ok md /\ md == -2
    /\ ~ md <= mac.
Proof.
  do 4 eexists. split; [reflexivity|].
  split; [vm_compute; discriminate|].
  split; [vm_compute; reflexivity|]. split; [reflexivity|].
  split; [vm_compute; reflexivity|]. split; [reflexivity|].
  split; [vm_compute; reflexivity|]. split; [reflexivity|].
  vm_compute. intros H. apply H. reflexivity.
Qed.

(** C7, amended.  For a bond with non-negative yield, non-negative coupon
    rate and positive payments per year whose price is defined and
    non-zero, both durations are defined and
    [modified_duration() <= macaulay_duration()]. *)
Theorem duration_order (f c y : Q) (n k : Z) (b : Bond) (p : Q) :
  __init__ f c y n k = Ok b ->
  0 <= y -> 0 <= c -> (0 < k)%Z ->
  price b = Ok p -> ~ p == 0 ->
  exists mac md,
    macaulay_duration b = Ok mac
    /\ modified_duration b = Ok md
    /\ md <= mac.
Proof.
  intros Hb Hy Hc Hk0 Hp Hz. destruct (init_inv _ _ _ _ _ _ Hb) as [Hk E].
  assert (Hk' : payments_per_year b <> 0%Z) by (rewrite E; exact Hk).
  destruct (queries_defined b p Hk' Hp Hz)
    as [w [s [Hw [_ [Hmac [Hmod _]]]]]].
  destruct (price_ok_inv b p Hp) as [HN Hd].
  destruct (price_value b HN Hd) as [p' [Hp' Hq]].
  rewrite Hp in Hp'. injection Hp' as <-.
  exists (w / p / inject_Z (payments_per_year b)).
  exists (w / p / inject_Z (payments_per_year b) / (1 + periodic_yield b)).
  split; [exact Hmac|]. split; [exact Hmod|].
  assert (HkQ : 0 < inject_Z k)
    by (change 0 with (inject_Z 0); now rewrite <- Zlt_Qlt).
  assert (Hpy : 0 <= periodic_yield b).
  { rewrite E. simpl. apply Qle_shift_div_l; [exact HkQ|lra]. }
  assert (Hd1 : 1 <= 1 + periodic_yield b) by lra.
  assert (Hd0 : 0 < 1 + periodic_yield b) by lra.
  assert (Hcm : 0 <= c / inject_Z k)
    by (apply Qle_shift_div_l; [exact HkQ|lra]).
  assert (Hwp : 0 <= w * p).
  { rewrite Hw, Hq.
    assert (Hpc : periodic_coupon b == face_value b * (c / inject_Z k))
      by (rewrite E; simpl; field; lra).
    destruct (Qlt_le_dec (face_value b) 0) as [Hneg|Hpos].
    - assert (Hs : forall cf, In cf (schedule b) -> 0 <= -1 * cf).
      { apply schedule_sign; [rewrite Hpc; nra | lra]. }
      pose proof (pv_sum_sign (-1) _ _ Hd0 Hs 1) as H1.
      pose proof (tpv_sum_sign (-1) _ _ Hd0 Hs 1 ltac:(lia)) as H2.
      nra.
    - assert (Hs : forall cf, In cf (schedule b) -> 0 <= 1 * cf).
      { apply schedule_sign; [rewrite Hpc; nra | lra]. }
      pose proof (pv_sum_sign 1 _ _ Hd0 Hs 1) as H1.
      pose proof (tpv_sum_sign 1 _ _ Hd0 Hs 1 ltac:(lia)) as H2.
      nra. }
  assert (Hmac0 : 0 <= w / p / inject_Z (payments_per_year b)).
  { apply Qle_shift_div_l.
    - rewrite E. simpl. exact HkQ.
    - rewrite Qmult_0_l. now apply quotient_nonneg. }
  apply Qle_shift_div_r; [exact Hd0|]. nra.
Qed.

Lemma duration_order_witness :
  exists mac md,
    (b <- __init__ 1000 (6 # 100) (8 # 100) 5 1 ;; macaulay_duration b)
    = Ok mac
    /\ (b <- __init__ 1000 (6 # 100) (8 # 100) 5 1 ;; modified_duration b)
       = Ok md
    /\ md <= mac.
Proof.
  refine (duration_order 1000 (6 # 100) (8 # 100) 5 1 _ _ eq_refl _ _ _ _ _).
  - vm_compute. discriminate.
  - vm_compute. discriminate.
  - reflexivity.
  - vm_compute. reflexivity.
  - vm_compute. discriminate.
Defined.

(** * Further properties of the code *)

(** ** Time value of money *)

Lemma pow_nonzero_base (line : nat) (base : Q) (e : Z) :
  ~ base == 0 -> pow line base e = Ok (base ^ e).
Proof.
  intros Hb. unfold pow.
  destruct (Qeq_bool base 0) eqn:E; [|reflexivity].
  apply Qeq_bool_eq in E. contradiction.
Qed.

Lemma present_value_nonzero_base (cf r : Q) (t : Z) :
  ~ 1 + r == 0 -> present_value cf r t = Ok (cf / (1 + r) ^ t).
Proof.
  intros Hd. unfold present_value, power.
  rewrite pow_nonzero_base by exact Hd. simpl.
  apply divide_ok. now apply Qpower_not_0.
Qed.

Lemma future_value_nonzero_base (cf r : Q) (t : Z) :
  ~ 1 + r == 0 -> future_value cf r t = Ok (cf * (1 + r) ^ t).
Proof.
  intros Hd. unfold future_value, power.
  now rewrite pow_nonzero_base by exact Hd.
Qed.

(** X1. What [present_value] does in exact arithmetic (floats idealised
    as exact rationals: the power neither overflows nor underflows), by
    the discount base [1 + rate] and the period.  With a non-zero base it
    returns [cash_flow / (1 + rate)^period] for every period, negative
    ones included.  With a zero base (rate
    -100%) it raises in [power] (line 25) for a negative period, returns
    the cash flow for period 0, and raises at the guard of [divide]
    (line 21) for a positive period. *)
Theorem present_value_outcome (cf r : Q) (t : Z) :
  (~ 1 + r == 0 -> present_value cf r t = Ok (cf / (1 + r) ^ t))
  /\ (1 + r == 0 -> (t < 0)%Z ->
      present_value cf r t = Raise (mkExn ZeroDivisionError 25))
  /\ (1 + r == 0 -> t = 0%Z ->
      exists v, present_value cf r t = Ok v /\ v == cf)
  /\ (1 + r == 0 -> (0 < t)%Z ->
      present_value cf r t = Raise (mkExn ZeroDivisionError 21)).
Proof.
  split; [apply present_value_nonzero_base|].
  split; [|split].
  - intros Hd Ht. unfold present_value, power, pow.
    rewrite (Qeq_eq_bool _ _ Hd).
    replace (t <? 0)%Z with true by (symmetry; now apply Z.ltb_lt).
    reflexivity.
  - intros Hd ->. unfold present_value, power.
    rewrite pow_nonneg by lia. simpl bind.
    rewrite divide_ok by (simpl; discriminate).
    eexists. split; [reflexivity|]. simpl. field.
  - intros Hd Ht. apply present_value_zero_base; [exact Hd|lia].
Qed.

Lemma present_value_outcome_witness :
  present_value 100 (1 # 10) (-2) = Ok (100 / (1 + (1 # 10)) ^ (-2))
  /\ present_value 100 (-1) (-2) = Raise (mkExn ZeroDivisionError 25)
  /\ (exists v, present_value 100 (-1) 0 = Ok v /\ v == 100)
  /\ present_value 100 (-1) 2 = Raise (mkExn ZeroDivisionError 21).
Proof.
  split; [|split; [|split]].
  - apply (proj1 (present_value_outcome 100 (1 # 10) (-2))).
    vm_compute. discriminate.
  - apply (proj1 (proj2 (present_value_outcome 100 (-1) (-2))));
      reflexivity.
  - apply (proj1 (proj2 (proj2 (present_value_outcome 100 (-1) 0))));
      reflexivity.
  - apply (proj2 (proj2 (proj2 (present_value_outcome 100 (-1) 2))));
      reflexivity.
Defined.

(** X2. In exact arithmetic (floats idealised as exact rationals: the
    power neither overflows nor underflows) [future_value] fails in one
    case only: a zero growth base [1 + rate] with a negative period, where
    [power] raises (line 25).
    In every other case it returns [cash_flow * (1 + rate)^period]; in
    particular it returns for every non-negative period, also at rate
    -100% where [present_value] raises. *)
Theorem future_value_outcome (cf r : Q) (t : Z) :
  (1 + r == 0 -> (t < 0)%Z ->
   future_value cf r t = Raise (mkExn ZeroDivisionError 25))
  /\ (~ 1 + r == 0 \/ (0 <= t)%Z ->
      future_value cf r t = Ok (cf * (1 + r) ^ t)).
Proof.
  split.
  - intros Hd Ht. unfold future_value, power, pow.
    rewrite (Qeq_eq_bool _ _ Hd).
    replace (t <? 0)%Z with true by (symmetry; now apply Z.ltb_lt).
    reflexivity.
  - intros [Hd|Ht].
    + now apply future_value_nonzero_base.
    + unfold future_value, power. now rewrite pow_nonneg.
Qed.

Lemma future_value_outcome_witness :
  future_value 100 (-1) (-1) = Raise (mkExn ZeroDivisionError 25)
  /\ future_value 100 (-1) 3 = Ok (100 * (1 + -1) ^ 3).
Proof.
  split.
  - apply (proj1 (future_value_outcome 100 (-1) (-1))); reflexivity.
  - apply (proj2 (future_value_outcome 100 (-1) 3)). right. discriminate.
Defined.

(** X3. Discounting undoes compounding and compounding undoes
    discounting, at the same rate and period, when [1 + rate] is not
    zero. *)
Theorem tvm_round_trip (cf r : Q) (t : Z) :
  ~ 1 + r == 0 ->
  req (v <- future_value cf r t ;; present_value v r t) (Ok cf)
  /\ req (v <- present_value cf r t ;; future_value v r t) (Ok cf).
Proof.
  intros Hd. pose proof (Qpower_not_0 _ t Hd) as Hp.
  rewrite future_value_nonzero_base, present_value_nonzero_base by exact Hd.
  simpl bind.
  rewrite future_value_nonzero_base, present_value_nonzero_base by exact Hd.
  simpl. split; field; exact Hp.
Qed.

Lemma tvm_round_trip_witness :
  req (v <- future_value 1000 (8 # 100) 5 ;; present_value v (8 # 100) 5)
      (Ok 1000)
  /\ req (v <- present_value 1000 (8 # 100) 5 ;; future_value v (8 # 100) 5)
         (Ok 1000).
Proof.
  apply (tvm_round_trip 1000 (8 # 100) 5). vm_compute. discriminate.
Defined.

(** X4. Periods add up: discounting over [s] periods and then over [t]
    more is discounting over [s + t] periods, and the same for
    compounding, when [1 + rate] is not zero. *)
Theorem tvm_periods_add (cf r : Q) (s t : Z) :
  ~ 1 + r == 0 ->
  req (v <- present_value cf r s ;; present_value v r t)
      (present_value cf r (s + t))
  /\ req (v <- future_value cf r s ;; future_value v r t)
         (future_value cf r (s + t)).
Proof.
  intros Hd.
  pose proof (Qpower_not_0 _ s Hd) as Hs.
  pose proof (Qpower_not_0 _ t Hd) as Ht.
  rewrite !present_value_nonzero_base, !future_value_nonzero_base
    by exact Hd.
  simpl bind.
  rewrite !present_value_nonzero_base, !future_value_nonzero_base
    by exact Hd.
  simpl. rewrite Qpower_plus by exact Hd.
  split; field. split; assumption.
Qed.

Lemma tvm_periods_add_witness :
  req (v <- present_value 1000 (8 # 100) 2 ;; present_value v (8 # 100) 3)
      (present_value 1000 (8 # 100) (2 + 3))
  /\ req (v <- future_value 1000 (8 # 100) 2 ;; future_value v (8 # 100) 3)
         (future_value 1000 (8 # 100) (2 + 3)).
Proof.
  apply (tvm_periods_add 1000 (8 # 100) 2 3). vm_compute. discriminate.
Defined.

(** X5. Discounting over a negative period is compounding over the
    opposite period, when [1 + rate] is not zero. *)
Theorem present_value_negative_period (cf r : Q) (t : Z) :
  ~ 1 + r == 0 ->
  req (present_value cf r (- t)) (future_value cf r t).
Proof.
  intros Hd. pose proof (Qpower_not_0 _ t Hd) as Hp.
  rewrite present_value_nonzero_base, future_value_nonzero_base by exact Hd.
  simpl. rewrite Qpower_opp. field. exact Hp.
Qed.

Lemma present_value_negative_period_witness :
  req (present_value 1000 (8 # 100) (- 5)) (future_value 1000 (8 # 100) 5).
Proof.
  apply (present_value_negative_period 1000 (8 # 100) 5).
  vm_compute. discriminate.
Defined.

(** ** Bonds with sensible terms *)

Lemma inject_Z_pos (k : Z) : (0 < k)%Z -> 0 < inject_Z k.
Proof.
  intros Hk. change 0 with (inject_Z 0). now rewrite <- Zlt_Qlt.
Qed.

Lemma inject_Z_nonneg (k : Z) : (0 <= k)%Z -> 0 <= inject_Z k.
Proof.
  intros Hk. change 0 with (inject_Z 0). now rewrite <- Zle_Qle.
Qed.

Lemma inject_Z_succ (t : Z) : inject_Z (t + 1) == inject_Z t + 1.
Proof. rewrite inject_Z_plus. reflexivity. Qed.

(** A schedule with non-negative coupon and positive principal has a
    positive present value. *)
Lemma pv_sum_schedule_pos (d pc F : Q) :
  0 < d -> 0 <= pc -> 0 < F ->
  forall (k : nat) (t : Z), 0 < pv_sum d t (repeat pc k ++ [pc + F]).
Proof.
  intros Hd Hpc HF. induction k as [|k IH]; intros t.
  - simpl. assert (H : 0 < (pc + F) / d ^ t).
    { apply Qlt_shift_div_l; [now apply Qpower_0_lt | lra]. }
    lra.
  - change (pv_sum d t (repeat pc (S k) ++ [pc + F]))
      with (pc / d ^ t + pv_sum d (t + 1) (repeat pc k ++ [pc + F])).
    assert (H : 0 <= pc / d ^ t).
    { apply Qle_shift_div_l; [now apply Qpower_0_lt | lra]. }
    specialize (IH (t + 1)%Z). lra.
Qed.

Lemma cx_sum_sign (s d : Q) (cfs : list Q) :
  0 < d -> (forall cf, In cf cfs -> 0 <= s * cf) ->
  forall t, (0 <= t)%Z -> 0 <= s * cx_sum d t cfs.
Proof.
  intros Hd. induction cfs as [|cf rest IH]; intros Hall t Ht; simpl.
  - rewrite Qmult_0_r. apply Qle_refl.
  - assert (H1 : 0 <= s * cf) by (apply Hall; now left).
    assert (H2 : 0 <= s * cx_sum d (t + 1) rest)
      by (apply IH; [intros x Hx; apply Hall; now right | lia]).
    assert (H4 : 0 <= inject_Z t) by (apply inject_Z_nonneg; lia).
    assert (H5 : 0 <= inject_Z (t + 1)) by (apply inject_Z_nonneg; lia).
    assert (H3 : 0 <= s * cf * inject_Z t * inject_Z (t + 1) / d ^ (t + 2)).
    { apply Qle_shift_div_l; [now apply Qpower_0_lt|]. rewrite Qmult_0_l.
      apply Qmult_le_0_compat; [|exact H5].
      apply Qmult_le_0_compat; assumption. }
    setoid_replace
      (s * (cf * inject_Z t * inject_Z (t + 1) / d ^ (t + 2)
            + cx_sum d (t + 1) rest))
      with (s * cf * inject_Z t * inject_Z (t + 1) / d ^ (t + 2)
            + s * cx_sum d (t + 1) rest)
      by (field; apply Qpower_not_0; lra).
    lra.
Qed.

(** What the constructor and sensible terms give. *)
Lemma sensible_terms (f c y : Q) (n k : Z) (b : Bond) :
  __init__ f c y n k = Ok b ->
  (0 < n)%Z -> (0 < k)%Z -> 0 < 1 + y / inject_Z k ->
  b = mkBond f c y n k (n * k) (f * c / inject_Z k) (y / inject_Z k)
  /\ (1 <= total_periods b)%Z
  /\ 0 < 1 + periodic_yield b
  /\ 0 < inject_Z k.
Proof.
  intros Hb Hn Hk Hd. destruct (init_inv _ _ _ _ _ _ Hb) as [_ ->].
  split; [reflexivity|]. split; [simpl; nia|].
  split; [exact Hd|]. now apply inject_Z_pos.
Qed.

Lemma schedule_nonneg (b : Bond) :
  0 <= periodic_coupon b -> 0 <= face_value b ->
  forall cf, In cf (schedule b) -> 0 <= 1 * cf.
Proof.
  intros Hpc Hf. apply schedule_sign; lra.
Qed.

(** X6. In exact arithmetic (floats idealised as exact rationals: no
    rounding, overflow or underflow) a bond with positive face value,
    non-negative coupon rate, positive maturity and payments per year, and
    a positive discount base [1 + yield_to_maturity / payments_per_year],
    has a positive price, and every one of its query methods returns a
    value. *)
Theorem sensible_bond_defined (f c y : Q) (n k : Z) (b : Bond) :
  __init__ f c y n k = Ok b ->
  0 < f -> 0 <= c -> (0 < n)%Z -> (0 < k)%Z -> 0 < 1 + y / inject_Z k ->
  (exists p, price b = Ok p /\ 0 < p)
  /\ forall q : query, exists v, run_query b q = Ok v.
Proof.
  intros Hb Hf Hc Hn Hk Hd.
  destruct (sensible_terms _ _ _ _ _ _ Hb Hn Hk Hd) as [E [HN [Hd0 HkQ]]].
  assert (Hdn : ~ 1 + periodic_yield b == 0) by lra.
  destruct (price_value b HN Hdn) as [p [Hp Hq]].
  assert (Hpc : 0 <= periodic_coupon b).
  { rewrite E. cbn [periodic_coupon].
    apply Qle_shift_div_l; [exact HkQ|]. nra. }
  assert (Hpos : 0 < p).
  { rewrite Hq. unfold schedule. apply pv_sum_schedule_pos.
    - exact Hd0.
    - exact Hpc.
    - rewrite E. exact Hf. }
  split; [exists p; split; assumption|].
  assert (Hk' : payments_per_year b <> 0%Z) by (rewrite E; simpl; lia).
  assert (Hz : ~ p == 0) by lra.
  destruct (queries_defined b p Hk' Hp Hz)
    as [w [s [_ [_ [Hmac [Hmod [Hcx Hppc]]]]]]].
  intros [| | | |dy]; simpl; eexists; eauto.
Qed.

Lemma sensible_bond_defined_witness :
  (exists p,
      (b <- __init__ 1000 (6 # 100) (8 # 100) 5 2 ;; price b) = Ok p
      /\ 0 < p)
  /\ forall q : query,
       exists v,
         (b <- __init__ 1000 (6 # 100) (8 # 100) 5 2 ;; run_query b q) = Ok v.
Proof.
  refine (sensible_bond_defined 1000 (6 # 100) (8 # 100) 5 2 _
            eq_refl _ _ _ _ _); vm_compute; (reflexivity || discriminate).
Defined.

(** X7. A negative number of periods (a negative maturity, say) behaves
    like none: the list of coupons is empty, and the cash-flow helper and
    every query method raise the index error of line 81. *)
Theorem negative_periods_index_error (f c y : Q) (n k : Z) (b : Bond) :
  __init__ f c y n k = Ok b ->
  (n * k < 0)%Z ->
  _cash_flows b = Raise (mkExn IndexError 81)
  /\ forall q : query, run_query b q = Raise (mkExn IndexError 81).
Proof.
  intros Hb HN. destruct (init_inv _ _ _ _ _ _ Hb) as [Hk ->].
  split.
  - apply cash_flows_raise. simpl. lia.
  - intros q. apply queries_no_periods. simpl. lia.
Qed.

Lemma negative_periods_index_error_witness :
  (b <- __init__ 1000 (6 # 100) (8 # 100) (-5) 2 ;; _cash_flows b)
  = Raise (mkExn IndexError 81)
  /\ forall q : query,
       (b <- __init__ 1000 (6 # 100) (8 # 100) (-5) 2 ;; run_query b q)
       = Raise (mkExn IndexError 81).
Proof.
  apply (negative_periods_index_error 1000 (6 # 100) (8 # 100) (-5) 2 _
           eq_refl).
  reflexivity.
Defined.

(** ** Price against face value *)

Lemma pv_sum_base_one (d : Q) (cfs : list Q) :
  d == 1 -> forall t, pv_sum d t cfs == fold_right Qplus 0 cfs.
Proof.
  intros Hd. induction cfs as [|cf rest IH]; intros t; simpl.
  - reflexivity.
  - rewrite IH, Hd, Qpower_1. field.
Qed.

Lemma sum_schedule (pc F : Q) (k : nat) :
  fold_right Qplus 0 (repeat pc k ++ [pc + F])
  == inject_Z (Z.of_nat k + 1) * pc + F.
Proof.
  induction k as [|k IH].
  - simpl. ring.
  - change (fold_right Qplus 0 (repeat pc (S k) ++ [pc + F]))
      with (pc + fold_right Qplus 0 (repeat pc k ++ [pc + F])).
    rewrite IH. replace (Z.of_nat (S k) + 1)%Z with (Z.of_nat k + 1 + 1)%Z
      by lia.
    rewrite (inject_Z_succ (Z.of_nat k + 1)). ring.
Qed.

(** X8. At a yield of zero nothing is discounted: the price is the plain
    sum of the cash flows, the face value plus [total_periods] periodic
    coupons. *)
Theorem zero_yield_price (f c y : Q) (n k : Z) (b : Bond) :
  __init__ f c y n k = Ok b ->
  (1 <= n * k)%Z ->
  y == 0 ->
  exists p,
    price b = Ok p
    /\ p == f + inject_Z (n * k) * (f * c / inject_Z k).
Proof.
  intros Hb HN Hy. destruct (init_inv _ _ _ _ _ _ Hb) as [Hk ->].
  set (b := mkBond f c y n k (n * k) (f * c / inject_Z k) (y / inject_Z k)).
  pose proof (inject_Z_nonzero k Hk) as HkQ.
  assert (Hd1 : 1 + periodic_yield b == 1).
  { unfold b. cbn [periodic_yield]. rewrite Hy. field. exact HkQ. }
  assert (Hd : ~ 1 + periodic_yield b == 0) by (rewrite Hd1; discriminate).
  destruct (price_value b HN Hd) as [p [Hp Hq]].
  exists p. split; [exact Hp|].
  rewrite Hq, (pv_sum_base_one _ _ Hd1). unfold schedule.
  rewrite sum_schedule.
  replace (Z.of_nat (Z.to_nat (total_periods b - 1)) + 1)%Z with (n * k)%Z
    by (unfold b; cbn [total_periods]; lia).
  unfold b. cbn [periodic_coupon face_value]. ring.
Qed.

Lemma zero_yield_price_witness :
  exists p,
    (b <- __init__ 1000 (6 # 100) 0 5 2 ;; price b) = Ok p
    /\ p == 1000 + inject_Z (5 * 2) * (1000 * (6 # 100) / inject_Z 2).
Proof.
  refine (zero_yield_price 1000 (6 # 100) 0 5 2 _ eq_refl _ _).
  - vm_compute. discriminate.
  - reflexivity.
Defined.

(** The price minus the face value has the sign of the coupon minus the
    interest on the face value. *)
Lemma pv_sum_vs_par (s d pc F : Q) :
  0 < d -> 0 <= s * (pc - F * (d - 1)) ->
  forall (k : nat) (t : Z),
    0 <= s * (pv_sum d t (repeat pc k ++ [pc + F]) - F * d / d ^ t).
Proof.
  intros Hd Hs.
  assert (Hdn : ~ d == 0) by lra.
  assert (Hterm : forall t, 0 <= s * (pc - F * (d - 1)) / d ^ t).
  { intros t. apply Qle_shift_div_l; [now apply Qpower_0_lt|].
    now rewrite Qmult_0_l. }
  induction k as [|k IH]; intros t.
  - simpl.
    setoid_replace (s * ((pc + F) / d ^ t + 0 - F * d / d ^ t))
      with (s * (pc - F * (d - 1)) / d ^ t)
      by (field; now apply Qpower_not_0).
    apply Hterm.
  - change (pv_sum d t (repeat pc (S k) ++ [pc + F]))
      with (pc / d ^ t + pv_sum d (t + 1) (repeat pc k ++ [pc + F])).
    specialize (IH (t + 1)%Z). specialize (Hterm t).
    setoid_replace
      (s * (pc / d ^ t + pv_sum d (t + 1) (repeat pc k ++ [pc + F])
            - F * d / d ^ t))
      with (s * (pc - F * (d - 1)) / d ^ t
            + s * (pv_sum d (t + 1) (repeat pc k ++ [pc + F])
                   - F * d / d ^ (t + 1))).
    + lra.
    + rewrite power_succ by exact Hdn.
      field. split; [exact Hdn | now apply Qpower_not_0].
Qed.

(** X9. Premium and discount.  For a bond with positive face value,
    maturity and payments per year and a positive discount base, the price
    is at least the face value when the coupon rate is at least the yield,
    and at most the face value when the coupon rate is at most the
    yield. *)
Theorem premium_discount (f c y : Q) (n k : Z) (b : Bond) :
  __init__ f c y n k = Ok b ->
  0 < f -> (0 < n)%Z -> (0 < k)%Z -> 0 < 1 + y / inject_Z k ->
  exists p,
    price b = Ok p
    /\ (y <= c -> f <= p)
    /\ (c <= y -> p <= f).
Proof.
  intros Hb Hf Hn Hk Hd.
  destruct (sensible_terms _ _ _ _ _ _ Hb Hn Hk Hd) as [E [HN [Hd0 HkQ]]].
  assert (Hdn : ~ 1 + periodic_yield b == 0) by lra.
  destruct (price_value b HN Hdn) as [p [Hp Hq]].
  exists p. split; [exact Hp|].
  assert (Hgap : periodic_coupon b
                 - face_value b * (1 + periodic_yield b - 1)
                 == f * (c - y) / inject_Z k).
  { rewrite E. cbn [periodic_coupon face_value periodic_yield].
    field. lra. }
  assert (Hpar : face_value b * (1 + periodic_yield b)
                 / (1 + periodic_yield b) ^ 1 == f).
  { rewrite Qpower_1_r, E. cbn [face_value periodic_yield].
    remember (1 + y / inject_Z k) as d. field. rewrite E in Hdn.
    cbn [periodic_yield] in Hdn. now rewrite <- Heqd in Hdn. }
  split; intros Hcy.
  - assert (Hs : 0 <= 1 * (periodic_coupon b
                           - face_value b * (1 + periodic_yield b - 1))).
    { rewrite Hgap, Qmult_1_l. apply Qle_shift_div_l; [exact HkQ|]. nra. }
    pose proof (pv_sum_vs_par 1 _ _ _ Hd0 Hs
                  (Z.to_nat (total_periods b - 1)) 1) as H.
    fold (schedule b) in H. rewrite <- Hq, Hpar in H. lra.
  - assert (Hs : 0 <= -1 * (periodic_coupon b
                            - face_value b * (1 + periodic_yield b - 1))).
    { rewrite Hgap.
      setoid_replace (-1 * (f * (c - y) / inject_Z k))
        with (f * (y - c) / inject_Z k) by (field; lra).
      apply Qle_shift_div_l; [exact HkQ|]. nra. }
    pose proof (pv_sum_vs_par (-1) _ _ _ Hd0 Hs
                  (Z.to_nat (total_periods b - 1)) 1) as H.
    fold (schedule b) in H. rewrite <- Hq, Hpar in H. lra.
Qed.

Lemma premium_discount_witness :
  exists p,
    (b <- __init__ 1000 (6 # 100) (8 # 100) 5 1 ;; price b) = Ok p
    /\ (8 # 100 <= 6 # 100 -> 1000 <= p)
    /\ (6 # 100 <= 8 # 100 -> p <= 1000).
Proof.
  refine (premium_discount 1000 (6 # 100) (8 # 100) 5 1 _ eq_refl _ _ _ _);
    vm_compute; reflexivity.
Defined.

(** ** Durations and convexity *)

Lemma tpv_sum_zero_coupon (d pc F : Q) :
  ~ d == 0 -> pc == 0 ->
  forall (k : nat) (t : Z),
    tpv_sum d t (repeat pc k ++ [pc + F])
    == inject_Z (t + Z.of_nat k) * (F / d ^ (t + Z.of_nat k)).
Proof.
  intros Hd Hpc. induction k as [|k IH]; intros t.
  - simpl. rewrite Z.add_0_r, Hpc.
    field. now apply Qpower_not_0.
  - change (tpv_sum d t (repeat pc (S k) ++ [pc + F]))
      with (inject_Z t * (pc / d ^ t)
            + tpv_sum d (t + 1) (repeat pc k ++ [pc + F])).
    rewrite IH, Hpc.
    replace (t + Z.of_nat (S k))%Z with (t + 1 + Z.of_nat k)%Z by lia.
    field; repeat split; (assumption || now apply Qpower_not_0).
Qed.

(** X10. The Macaulay duration of a zero-coupon bond is its maturity in
    years, whenever the price is defined and not zero. *)
Theorem zero_coupon_duration (f y : Q) (n k : Z) (b : Bond) (p : Q) :
  __init__ f 0 y n k = Ok b ->
  price b = Ok p -> ~ p == 0 ->
  exists mac, macaulay_duration b = Ok mac /\ mac == inject_Z n.
Proof.
  intros Hb Hp Hz. destruct (init_inv _ _ _ _ _ _ Hb) as [Hk E].
  assert (Hk' : payments_per_year b <> 0%Z) by (rewrite E; exact Hk).
  destruct (queries_defined b p Hk' Hp Hz) as [w [s [Hw [_ [Hmac _]]]]].
  destruct (price_ok_inv b p Hp) as [HN Hd].
  destruct (price_value b HN Hd) as [p' [Hp' Hq]].
  rewrite Hp in Hp'. injection Hp' as <-.
  pose proof (inject_Z_nonzero k Hk) as HkQ.
  assert (Hpc : periodic_coupon b == 0)
    by (rewrite E; cbn [periodic_coupon]; field; exact HkQ).
  unfold schedule in Hw, Hq.
  rewrite (tpv_sum_zero_coupon _ _ _ Hd Hpc) in Hw.
  rewrite (pv_sum_zero_coupon _ _ _ Hd Hpc) in Hq.
  replace (1 + Z.of_nat (Z.to_nat (total_periods b - 1)))%Z with (n * k)%Z
    in Hw, Hq by (rewrite E; rewrite E in HN; cbn [total_periods] in *; lia).
  eexists. split; [exact Hmac|].
  rewrite Hw. rewrite <- Hq. rewrite E. cbn [payments_per_year].
  rewrite inject_Z_mult. field. split; assumption.
Qed.

Lemma zero_coupon_duration_witness :
  exists mac,
    (b <- __init__ 1000 0 (8 # 100) 5 2 ;; macaulay_duration b) = Ok mac
    /\ mac == inject_Z 5.
Proof.
  refine (zero_coupon_duration 1000 (8 # 100) 5 2 _ _ eq_refl _ _).
  - vm_compute. reflexivity.
  - vm_compute. discriminate.
Defined.

(** X11. A bond with a single annual payment ([maturity_years = 1],
    [payments_per_year = 1]) has a Macaulay duration of exactly 1 year,
    whatever its coupon and yield, whenever its price is defined and not
    zero. *)
Theorem single_payment_duration (f c y : Q) (b : Bond) (p : Q) :
  __init__ f c y 1 1 = Ok b ->
  price b = Ok p -> ~ p == 0 ->
  exists mac, macaulay_duration b = Ok mac /\ mac == 1.
Proof.
  intros Hb Hp Hz. destruct (init_inv _ _ _ _ _ _ Hb) as [Hk E].
  assert (Hk' : payments_per_year b <> 0%Z) by (rewrite E; exact Hk).
  destruct (queries_defined b p Hk' Hp Hz) as [w [s [Hw [_ [Hmac _]]]]].
  destruct (price_ok_inv b p Hp) as [HN Hd].
  destruct (price_value b HN Hd) as [p' [Hp' Hq]].
  rewrite Hp in Hp'. injection Hp' as <-.
  eexists. split; [exact Hmac|].
  assert (Hwp : w == p).
  { rewrite Hw, Hq. unfold schedule. rewrite E. cbn [total_periods].
    simpl. field. rewrite E in Hd. cbn [periodic_yield] in Hd.
    intros H. apply Hd. rewrite <- H. simpl. field. }
  rewrite Hwp, E. cbn [payments_per_year]. field. exact Hz.
Qed.

Lemma single_payment_duration_witness :
  exists mac,
    (b <- __init__ 1000 (6 # 100) (8 # 100) 1 1 ;; macaulay_duration b)
    = Ok mac
    /\ mac == 1.
Proof.
  refine (single_payment_duration 1000 (6 # 100) (8 # 100) _ _ eq_refl _ _).
  - vm_compute. reflexivity.
  - vm_compute. discriminate.
Defined.

(** Each flow is weighted by a period between the first and the last. *)
Lemma tpv_sum_bounds (d : Q) (cfs : list Q) :
  0 < d -> (forall cf, In cf cfs -> 0 <= 1 * cf) ->
  forall t, (0 <= t)%Z ->
    inject_Z t * pv_sum d t cfs <= tpv_sum d t cfs
    /\ tpv_sum d t cfs
       <= inject_Z (t + Z.of_nat (length cfs) - 1) * pv_sum d t cfs.
Proof.
  intros Hd. induction cfs as [|cf rest IH]; intros Hall t Ht.
  - simpl. split; lra.
  - assert (Hrest : forall x, In x rest -> 0 <= 1 * x)
      by (intros x Hx; apply Hall; now right).
    destruct (IH Hrest (t + 1)%Z ltac:(lia)) as [Hlo Hhi].
    pose proof (pv_sum_sign 1 d rest Hd Hrest (t + 1)) as HP.
    assert (Ha : 0 <= cf / d ^ t).
    { apply Qle_shift_div_l; [now apply Qpower_0_lt|].
      rewrite Qmult_0_l. specialize (Hall cf (or_introl eq_refl)). lra. }
    assert (Ht0 : 0 <= inject_Z t) by (apply inject_Z_nonneg; lia).
    assert (Hl0 : 0 <= inject_Z (Z.of_nat (length rest)))
      by (apply inject_Z_nonneg; lia).
    rewrite inject_Z_succ in Hlo.
    replace (t + 1 + Z.of_nat (length rest) - 1)%Z
      with (t + Z.of_nat (length rest))%Z in Hhi by lia.
    rewrite inject_Z_plus in Hhi.
    cbn [pv_sum tpv_sum length].
    replace (t + Z.of_nat (S (length rest)) - 1)%Z
      with (t + Z.of_nat (length rest))%Z by lia.
    rewrite inject_Z_plus.
    set (a := cf / d ^ t) in *. set (P := pv_sum d (t + 1) rest) in *.
    set (W := tpv_sum d (t + 1) rest) in *.
    set (T := inject_Z t) in *. set (L := inject_Z (Z.of_nat (length rest))) in *.
    split; nra.
Qed.

(** X12. For a bond with positive face value, non-negative coupon rate,
    positive maturity and payments per year and a positive discount base,
    the Macaulay duration lies between one payment period
    ([1 / payments_per_year] years) and the maturity in years. *)
Theorem duration_bounds (f c y : Q) (n k : Z) (b : Bond) :
  __init__ f c y n k = Ok b ->
  0 < f -> 0 <= c -> (0 < n)%Z -> (0 < k)%Z -> 0 < 1 + y / inject_Z k ->
  exists mac,
    macaulay_duration b = Ok mac
    /\ 1 / inject_Z k <= mac
    /\ mac <= inject_Z n.
Proof.
  intros Hb Hf Hc Hn Hk Hd.
  destruct (sensible_terms _ _ _ _ _ _ Hb Hn Hk Hd) as [E [HN [Hd0 HkQ]]].
  assert (Hdn : ~ 1 + periodic_yield b == 0) by lra.
  destruct (price_value b HN Hdn) as [p [Hp Hq]].
  assert (Hpc : 0 <= periodic_coupon b).
  { rewrite E. cbn [periodic_coupon].
    apply Qle_shift_div_l; [exact HkQ|]. nra. }
  assert (Hfv : 0 < face_value b) by (rewrite E; exact Hf).
  assert (Hpos : 0 < p).
  { rewrite Hq. unfold schedule. now apply pv_sum_schedule_pos. }
  assert (Hk' : payments_per_year b <> 0%Z) by (rewrite E; simpl; lia).
  assert (Hz : ~ p == 0) by lra.
  destruct (queries_defined b p Hk' Hp Hz) as [w [s [Hw [_ [Hmac _]]]]].
  assert (Hall : forall cf, In cf (schedule b) -> 0 <= 1 * cf)
    by (apply schedule_nonneg; lra).
  destruct (tpv_sum_bounds _ _ Hd0 Hall 1 ltac:(lia)) as [Hlo Hhi].
  rewrite <- Hw, <- Hq in Hlo, Hhi.
  pose proof (schedule_length b HN) as Hlen. rewrite Hlen in Hhi.
  replace (1 + total_periods b - 1)%Z with (n * k)%Z in Hhi
    by (rewrite E; cbn [total_periods]; lia).
  rewrite inject_Z_mult in Hhi. change (inject_Z 1) with 1 in Hlo.
  eexists. split; [exact Hmac|].
  assert (HmQ : inject_Z (payments_per_year b) == inject_Z k)
    by (rewrite E; reflexivity).
  rewrite HmQ.
  assert (Hr1 : 1 <= w / p)
    by (apply Qle_shift_div_l; [exact Hpos|lra]).
  assert (Hr2 : w / p <= inject_Z n * inject_Z k)
    by (apply Qle_shift_div_r; [exact Hpos|lra]).
  split.
  - apply Qle_shift_div_l; [exact HkQ|].
    setoid_replace (1 / inject_Z k * inject_Z k) with 1 by (field; lra).
    exact Hr1.
  - apply Qle_shift_div_r; [exact HkQ|exact Hr2].
Qed.

Lemma duration_bounds_witness :
  exists mac,
    (b <- __init__ 1000 (6 # 100) (8 # 100) 5 2 ;; macaulay_duration b)
    = Ok mac
    /\ 1 / inject_Z 2 <= mac
    /\ mac <= inject_Z 5.
Proof.
  refine (duration_bounds 1000 (6 # 100) (8 # 100) 5 2 _ eq_refl _ _ _ _ _);
    vm_compute; (reflexivity || discriminate).
Defined.

(** X13. For such a bond the convexity is not negative, so the
    second-order term never lowers the estimate: for every yield shift,
    [price_percentage_change] returns at least the duration term
    [- modified_duration * delta_yield]. *)
Theorem convexity_nonneg (f c y : Q) (n k : Z) (b : Bond) :
  __init__ f c y n k = Ok b ->
  0 < f -> 0 <= c -> (0 < n)%Z -> (0 < k)%Z -> 0 < 1 + y / inject_Z k ->
  exists md conv,
    modified_duration b = Ok md
    /\ convexity b = Ok conv
    /\ 0 <= conv
    /\ forall dy, exists r,
         price_percentage_change b dy = Ok r /\ - md * dy <= r.
Proof.
  intros Hb Hf Hc Hn Hk Hd.
  destruct (sensible_terms _ _ _ _ _ _ Hb Hn Hk Hd) as [E [HN [Hd0 HkQ]]].
  assert (Hdn : ~ 1 + periodic_yield b == 0) by lra.
  destruct (price_value b HN Hdn) as [p [Hp Hq]].
  assert (Hpc : 0 <= periodic_coupon b).
  { rewrite E. cbn [periodic_coupon].
    apply Qle_shift_div_l; [exact HkQ|]. nra. }
  assert (Hfv : 0 < face_value b) by (rewrite E; exact Hf).
  assert (Hpos : 0 < p).
  { rewrite Hq. unfold schedule. now apply pv_sum_schedule_pos. }
  assert (Hk' : payments_per_year b <> 0%Z) by (rewrite E; simpl; lia).
  assert (Hz : ~ p == 0) by lra.
  destruct (queries_defined b p Hk' Hp Hz)
    as [w [s [_ [Hs [_ [Hmod [Hcx Hppc]]]]]]].
  assert (Hall : forall cf, In cf (schedule b) -> 0 <= 1 * cf)
    by (apply schedule_nonneg; lra).
  pose proof (cx_sum_sign 1 _ _ Hd0 Hall 1 ltac:(lia)) as Hs0.
  rewrite <- Hs, Qmult_1_l in Hs0.
  assert (Hconv : 0 <= s / p / inject_Z (payments_per_year b ^ 2)).
  { apply Qle_shift_div_l.
    - apply inject_Z_pos. rewrite E. cbn [payments_per_year]. nia.
    - rewrite Qmult_0_l. apply Qle_shift_div_l; [exact Hpos|lra]. }
  do 2 eexists. split; [exact Hmod|]. split; [exact Hcx|].
  split; [exact Hconv|].
  intros dy. eexists. split; [apply Hppc|].
  pose proof (Qsqr_nonneg dy) as Hsq.
  set (cv := s / p / inject_Z (payments_per_year b ^ 2)) in *.
  set (sq := dy ^ 2) in *.
  assert (0 <= (1 # 2) * cv * sq) by nra.
  lra.
Qed.

Lemma convexity_nonneg_witness :
  exists md conv,
    (b <- __init__ 1000 (6 # 100) (8 # 100) 5 2 ;; modified_duration b)
    = Ok md
    /\ (b <- __init__ 1000 (6 # 100) (8 # 100) 5 2 ;; convexity b) = Ok conv
    /\ 0 <= conv
    /\ forall dy, exists r,
         (b <- __init__ 1000 (6 # 100) (8 # 100) 5 2 ;;
          price_percentage_change b dy) = Ok r
         /\ - md * dy <= r.
Proof.
  refine (convexity_nonneg 1000 (6 # 100) (8 # 100) 5 2 _ eq_refl _ _ _ _ _);
    vm_compute; (reflexivity || discriminate).
Defined.

(** ** Scaling the face value *)

Section Scaling.

Variables a d pc F pc' F' : Q.
Hypothesis Hd : ~ d == 0.
Hypothesis Hpc : pc' == a * pc.
Hypothesis HF : F' == a * F.

Lemma pv_sum_scale (k : nat) (t : Z) :
  pv_sum d t (repeat pc' k ++ [pc' + F'])
  == a * pv_sum d t (repeat pc k ++ [pc + F]).
Proof.
  revert t. induction k as [|k IH]; intros t.
  - simpl. rewrite Hpc, HF. field. now apply Qpower_not_0.
  - change (pv_sum d t (repeat pc' (S k) ++ [pc' + F']))
      with (pc' / d ^ t + pv_sum d (t + 1) (repeat pc' k ++ [pc' + F'])).
    change (pv_sum d t (repeat pc (S k) ++ [pc + F]))
      with (pc / d ^ t + pv_sum d (t + 1) (repeat pc k ++ [pc + F])).
    rewrite IH, Hpc. field. now apply Qpower_not_0.
Qed.

Lemma tpv_sum_scale (k : nat) (t : Z) :
  tpv_sum d t (repeat pc' k ++ [pc' + F'])
  == a * tpv_sum d t (repeat pc k ++ [pc + F]).
Proof.
  revert t. induction k as [|k IH]; intros t.
  - simpl. rewrite Hpc, HF. field. now apply Qpower_not_0.
  - change (tpv_sum d t (repeat pc' (S k) ++ [pc' + F']))
      with (inject_Z t * (pc' / d ^ t)
            + tpv_sum d (t + 1) (repeat pc' k ++ [pc' + F'])).
    change (tpv_sum d t (repeat pc (S k) ++ [pc + F]))
      with (inject_Z t * (pc / d ^ t)
            + tpv_sum d (t + 1) (repeat pc k ++ [pc + F])).
    rewrite IH, Hpc. field. now apply Qpower_not_0.
Qed.

Lemma cx_sum_scale (k : nat) (t : Z) :
  cx_sum d t (repeat pc' k ++ [pc' + F'])
  == a * cx_sum d t (repeat pc k ++ [pc + F]).
Proof.
  revert t. induction k as [|k IH]; intros t.
  - simpl. rewrite Hpc, HF. field. now apply Qpower_not_0.
  - change (cx_sum d t (repeat pc' (S k) ++ [pc' + F']))
      with (pc' * inject_Z t * inject_Z (t + 1) / d ^ (t + 2)
            + cx_sum d (t + 1) (repeat pc' k ++ [pc' + F'])).
    change (cx_sum d t (repeat pc (S k) ++ [pc + F]))
      with (pc * inject_Z t * inject_Z (t + 1) / d ^ (t + 2)
            + cx_sum d (t + 1) (repeat pc k ++ [pc + F])).
    rewrite IH, Hpc. field. now apply Qpower_not_0.
Qed.

End Scaling.

(** X14. Multiplying the face value by a non-zero factor multiplies the
    price by that factor and changes none of the sensitivities: Macaulay
    duration, modified duration, convexity and
    [price_percentage_change] are the same for both bonds. *)
Theorem face_value_scaling (a f c y : Q) (n k : Z) (b b' : Bond) (p : Q) :
  __init__ f c y n k = Ok b ->
  __init__ (a * f) c y n k = Ok b' ->
  ~ a == 0 ->
  price b = Ok p -> ~ p == 0 ->
  (exists p', price b' = Ok p' /\ p' == a * p)
  /\ req (macaulay_duration b') (macaulay_duration b)
  /\ req (modified_duration b') (modified_duration b)
  /\ req (convexity b') (convexity b)
  /\ forall dy,
       req (price_percentage_change b' dy) (price_percentage_change b dy).
Proof.
  intros Hb Hb' Ha Hp Hz.
  destruct (init_inv _ _ _ _ _ _ Hb) as [Hk E].
  destruct (init_inv _ _ _ _ _ _ Hb') as [_ E'].
  pose proof (inject_Z_nonzero k Hk) as HkQ.
  assert (Hm : payments_per_year b <> 0%Z) by (rewrite E; exact Hk).
  assert (Hm' : payments_per_year b' <> 0%Z) by (rewrite E'; exact Hk).
  destruct (price_ok_inv b p Hp) as [HN Hd].
  assert (HN' : (1 <= total_periods b')%Z)
    by (rewrite E'; rewrite E in HN; exact HN).
  assert (Hd' : ~ 1 + periodic_yield b' == 0)
    by (rewrite E'; rewrite E in Hd; exact Hd).
  destruct (price_value b HN Hd) as [p0 [Hp0 Hq]].
  rewrite Hp in Hp0. injection Hp0 as <-.
  destruct (price_value b' HN' Hd') as [p' [Hp' Hq']].
  assert (Hy : periodic_yield b' = periodic_yield b)
    by (rewrite E, E'; reflexivity).
  assert (HT : total_periods b' = total_periods b)
    by (rewrite E, E'; reflexivity).
  assert (HM : payments_per_year b' = payments_per_year b)
    by (rewrite E, E'; reflexivity).
  assert (Hpc : periodic_coupon b' == a * periodic_coupon b)
    by (rewrite E, E'; cbn [periodic_coupon]; field; exact HkQ).
  assert (HF : face_value b' == a * face_value b)
    by (rewrite E, E'; reflexivity).
  assert (Hap : p' == a * p).
  { rewrite Hq', Hq. unfold schedule. rewrite Hy, HT.
    now apply pv_sum_scale. }
  assert (Hz' : ~ p' == 0).
  { rewrite Hap. intros H. apply Qmult_integral in H. tauto. }
  destruct (queries_defined b p Hm Hp Hz)
    as [w [s [Hw [Hs [Hmac [Hmod [Hcx Hppc]]]]]]].
  destruct (queries_defined b' p' Hm' Hp' Hz')
    as [w' [s' [Hw' [Hs' [Hmac' [Hmod' [Hcx' Hppc']]]]]]].
  assert (Haw : w' == a * w).
  { rewrite Hw', Hw. unfold schedule. rewrite Hy, HT.
    now apply tpv_sum_scale. }
  assert (Has : s' == a * s).
  { rewrite Hs', Hs. unfold schedule. rewrite Hy, HT.
    now apply cx_sum_scale. }
  assert (Hm2 : ~ inject_Z (payments_per_year b ^ 2) == 0)
    by (apply inject_Z_nonzero; nia).
  assert (HmQ : ~ inject_Z (payments_per_year b) == 0)
    by now apply inject_Z_nonzero.
  split; [exists p'; split; assumption|].
  rewrite Hmac, Hmac', Hmod, Hmod', Hcx, Hcx'. rewrite HM, Hy.
  assert (Emac : w' / p' / inject_Z (payments_per_year b)
                 == w / p / inject_Z (payments_per_year b))
    by (rewrite Haw, Hap; field; tauto).
  assert (Ecx : s' / p' / inject_Z (payments_per_year b ^ 2)
                == s / p / inject_Z (payments_per_year b ^ 2))
    by (rewrite Has, Hap; field; tauto).
  split; [exact Emac|]. split; [simpl; now rewrite Emac|].
  split; [exact Ecx|].
  intros dy. rewrite Hppc, Hppc'. rewrite HM, Hy. simpl.
  now rewrite Emac, Ecx.
Qed.

Lemma face_value_scaling_witness :
  (exists p',
      (b <- __init__ (3 * 8) (1 # 2) 1 2 1 ;; price b) = Ok p'
      /\ p' == 3 * (160 # 32))
  /\ req (b <- __init__ (3 * 8) (1 # 2) 1 2 1 ;; macaulay_duration b)
         (b <- __init__ 8 (1 # 2) 1 2 1 ;; macaulay_duration b)
  /\ req (b <- __init__ (3 * 8) (1 # 2) 1 2 1 ;; modified_duration b)
         (b <- __init__ 8 (1 # 2) 1 2 1 ;; modified_duration b)
  /\ req (b <- __init__ (3 * 8) (1 # 2) 1 2 1 ;; convexity b)
         (b <- __init__ 8 (1 # 2) 1 2 1 ;; convexity b)
  /\ forall dy,
       req (b <- __init__ (3 * 8) (1 # 2) 1 2 1 ;;
            price_percentage_change b dy)
           (b <- __init__ 8 (1 # 2) 1 2 1 ;; price_percentage_change b dy).
Proof.
  refine (face_value_scaling 3 8 (1 # 2) 1 2 1 _ _ (160 # 32)
            eq_refl eq_refl _ _ _).
  - discriminate.
  - vm_compute. reflexivity.
  - discriminate.
Defined.

(** ** Bank accounts *)

Lemma do_call_frame (self : SavingsAccount.t) (c : call) :
  SavingsAccount.interest_rate (fst (do_call self c))
  = SavingsAccount.interest_rate self
  /\ BankAccount.account_holder (SavingsAccount.base (fst (do_call self c)))
     = BankAccount.account_holder (SavingsAccount.base self).
Proof.
  destruct c as [a|a| |]; simpl; try (split; reflexivity).
  unfold SavingsAccount.withdraw, BankAccount.withdraw.
  destruct (Qle_bool a (BankAccount.balance (SavingsAccount.base self)));
    split; reflexivity.
Qed.

Lemma run_cons (self : SavingsAccount.t) (c : call) (rest : list call) :
  fst (run self (c :: rest)) = fst (run (fst (do_call self c)) rest).
Proof.
  simpl. destruct (do_call self c) as [self1 out1]. simpl.
  destruct (run self1 rest) as [self2 out2]. reflexivity.
Qed.

(** X15. No sequence of calls changes the holder of a savings account or
    its interest rate. *)
Theorem run_keeps_holder_and_rate (self : SavingsAccount.t)
  (calls : list call) :
  SavingsAccount.interest_rate (fst (run self calls))
  = SavingsAccount.interest_rate self
  /\ BankAccount.account_holder (SavingsAccount.base (fst (run self calls)))
     = BankAccount.account_holder (SavingsAccount.base self).
Proof.
  revert self. induction calls as [|c rest IH]; intros self.
  - split; reflexivity.
  - rewrite run_cons.
    destruct (IH (fst (do_call self c))) as [H1 H2].
    destruct (do_call_frame self c) as [H3 H4].
    split; congruence.
Qed.

Lemma do_call_nonneg (self : SavingsAccount.t) (c : call) :
  0 <= BankAccount.balance (SavingsAccount.base self) ->
  -1 <= SavingsAccount.interest_rate self ->
  (forall amount, c = Deposit amount -> 0 <= amount) ->
  0 <= BankAccount.balance (SavingsAccount.base (fst (do_call self c))).
Proof.
  intros Hb Hr Hc. destruct c as [a|a| |]; simpl.
  - specialize (Hc a eq_refl). lra.
  - unfold SavingsAccount.withdraw, BankAccount.withdraw.
    destruct (Qle_bool a (BankAccount.balance (SavingsAccount.base self)))
      eqn:E; simpl.
    + apply Qle_bool_iff in E. lra.
    + exact Hb.
  - nra.
  - exact Hb.
Qed.

(** X16. The balance never goes below zero.  Starting from a non-negative
    balance, with an interest rate of at least -100%, any sequence of
    calls in which no deposit is negative leaves a non-negative balance;
    the amounts withdrawn are arbitrary. *)
Theorem balance_never_negative (self : SavingsAccount.t)
  (calls : list call) :
  0 <= SavingsAccount.check_balance self ->
  -1 <= SavingsAccount.interest_rate self ->
  deposits_nonneg calls ->
  0 <= SavingsAccount.check_balance (fst (run self calls)).
Proof.
  unfold SavingsAccount.check_balance, BankAccount.check_balance.
  revert self. induction calls as [|c rest IH]; intros self Hb Hr Hd.
  - exact Hb.
  - rewrite run_cons. apply IH.
    + apply do_call_nonneg; try assumption.
      intros amount ->. apply Hd. now left.
    + destruct (do_call_frame self c) as [-> _]. exact Hr.
    + intros amount Hin. apply Hd. now right.
Qed.

Lemma balance_never_negative_witness :
  0 <= SavingsAccount.check_balance
         (fst (run (SavingsAccount.__init__ "Bob" 1000 (5 # 100))
                 [ApplyInterest; Deposit 200; Withdraw 5000; Withdraw 1250;
                  CheckBalance])).
Proof.
  apply (balance_never_negative
           (SavingsAccount.__init__ "Bob" 1000 (5 # 100))).
  - vm_compute. discriminate.
  - vm_compute. discriminate.
  - intros amount [H|[H|[H|[H|[H|[]]]]]]; try discriminate.
    injection H as <-. vm_compute. discriminate.
Defined.

(** X17. Withdrawing what was just deposited restores the balance and
    prints nothing, provided the balance was not negative.  On an
    overdrawn account the withdrawal is refused instead: the deposit
    stays and the message is printed. *)
Theorem deposit_then_withdraw (self : BankAccount.t) (amount : Q) :
  (0 <= BankAccount.balance self ->
   exists acct,
     BankAccount.withdraw (BankAccount.deposit self amount) amount
     = (acct, [])
     /\ BankAccount.balance acct == BankAccount.balance self
     /\ BankAccount.account_holder acct = BankAccount.account_holder self)
  /\ (BankAccount.balance self < 0 ->
      BankAccount.withdraw (BankAccount.deposit self amount) amount
      = (BankAccount.deposit self amount, ["Insufficient funds!"%string])).
Proof.
  unfold BankAccount.withdraw, BankAccount.deposit. simpl. split; intros Hb.
  - replace (Qle_bool amount (BankAccount.balance self + amount)) with true
      by (symmetry; apply Qle_bool_iff; lra).
    eexists. split; [reflexivity|]. simpl. split; [ring|reflexivity].
  - destruct (Qle_bool amount (BankAccount.balance self + amount)) eqn:E;
      [|reflexivity].
    apply Qle_bool_iff in E. lra.
Qed.

Lemma deposit_then_withdraw_witness :
  (exists acct,
      BankAccount.withdraw
        (BankAccount.deposit (BankAccount.__init__ "Alice" 100) 50) 50
      = (acct, [])
      /\ BankAccount.balance acct == 100
      /\ BankAccount.account_holder acct = "Alice"%string)
  /\ BankAccount.withdraw
       (BankAccount.deposit (BankAccount.__init__ "Alice" (-100)) 50) 50
     = (BankAccount.deposit (BankAccount.__init__ "Alice" (-100)) 50,
        ["Insufficient funds!"%string]).
Proof.
  split.
  - apply (proj1 (deposit_then_withdraw
                    (BankAccount.__init__ "Alice" 100) 50)).
    vm_compute. discriminate.
  - apply (proj2 (deposit_then_withdraw
                    (BankAccount.__init__ "Alice" (-100)) 50)).
    vm_compute. reflexivity.
Defined.

Lemma Qpower_succ_nonneg (a : Q) (n : nat) :
  a ^ Z.of_nat (S n) == a * a ^ Z.of_nat n.
Proof.
  destruct (Qeq_dec a 0) as [Ha|Ha].
  - rewrite Ha, Qpower_0 by lia. ring.
  - replace (Z.of_nat (S n)) with (1 + Z.of_nat n)%Z by lia.
    rewrite Qpower_plus by exact Ha. now rewrite Qpower_1_r.
Qed.

(** X18. Compound interest.  After [n] calls of [apply_interest] the
    balance is the starting balance times [(1 + interest_rate)^n], which
    is what [future_value] of the starting balance at that rate over [n]
    periods returns. *)
Theorem interest_compounds (self : SavingsAccount.t) (n : nat) :
  req (Ok (SavingsAccount.check_balance
             (fst (run self (repeat ApplyInterest n)))))
      (future_value (SavingsAccount.check_balance self)
         (SavingsAccount.interest_rate self) (Z.of_nat n)).
Proof.
  unfold future_value, power. rewrite pow_nonneg by lia. simpl bind.
  unfold req, multiply, SavingsAccount.check_balance,
    BankAccount.check_balance.
  revert self. induction n as [|n IH]; intros self.
  - simpl. ring.
  - change (repeat ApplyInterest (S n))
      with (ApplyInterest :: repeat ApplyInterest n).
    rewrite run_cons, IH, Qpower_succ_nonneg. simpl. ring.
Qed.

(** * Binary64: what exact arithmetic hides *)

(** In binary64 the power [**] fails in ways the exact model cannot show.
    Take face value 1000, no coupon, one payment a year.  With yield
    [-(1 - 2^-53)] the discount base is [2^-53], not zero; over 21 periods
    its power underflows to [0.0] and [divide] raises at line 21.  Over 19
    periods the price is returned, but the discount factor of [convexity]
    underflows and the division of line 129 raises.  With yield [1e300]
    over 2 periods the power overflows and [power] raises [OverflowError]
    at line 25. *)
Lemma binary64_power_failures :
  (exists b,
      Binary64.__init__ (Binary64.of_Z 1000) Binary64.zero
        (S754_finite true 9007199254740991 (-53)) 21 1 = Ok b
      /\ Binary64.feq (Binary64.fadd Binary64.one (Binary64.periodic_yield b))
           Binary64.zero = false
      /\ Binary64.price b = Raise (mkExn ZeroDivisionError 21))
  /\ (exists b p,
         Binary64.__init__ (Binary64.of_Z 1000) Binary64.zero
           (S754_finite true 9007199254740991 (-53)) 19 1 = Ok b
         /\ Binary64.price b = Ok p
         /\ Binary64.convexity b = Raise (mkExn ZeroDivisionError 129))
  /\ (exists b,
         Binary64.__init__ (Binary64.of_Z 1000) Binary64.zero
           (Binary64.of_Z (10 ^ 300)) 2 1 = Ok b
         /\ Binary64.price b = Raise (mkExn OverflowError 25)).
Proof.
  split; [|split].
  - eexists. split; [reflexivity|]. split; vm_compute; reflexivity.
  - do 2 eexists. split; [reflexivity|]. split; vm_compute; reflexivity.
  - eexists. split; [reflexivity|]. vm_compute. reflexivity.
Qed.

(** C8, as stated, fails in binary64.  The zero-coupon bond with face
    value 1000, yield [-(1 - 2^-53)] (written -0.9999999999999999) and 18
    annual periods has a finite non-zero price, but its convexity sum
    overflows to [inf]; [price_percentage_change(0)] multiplies it by zero
    and returns NaN, which is not equal to 0.  The same happens for face
    value 1e308 at yield 0 over 2 periods, where the weighted sum of the
    duration overflows. *)
Lemma zero_shift_counterexample :
  (exists b p cv r,
      Binary64.__init__ (Binary64.of_Z 1000) Binary64.zero
        (S754_finite true 9007199254740991 (-53)) 18 1 = Ok b
      /\ Binary64.price b = Ok p
      /\ Binary64.is_finite p = true /\ Binary64.feq p Binary64.zero = false
      /\ Binary64.convexity b = Ok cv /\ cv = S754_infinity false
      /\ Binary64.price_percentage_change b Binary64.zero = Ok r
      /\ r = S754_nan /\ Binary64.feq r Binary64.zero = false)
  /\ (exists b p d r,
         Binary64.__init__ (Binary64.of_Z (10 ^ 308)) Binary64.zero
           Binary64.zero 2 1 = Ok b
         /\ Binary64.price b = Ok p
         /\ Binary64.is_finite p = true /\ Binary64.feq p Binary64.zero = false
         /\ Binary64.modified_duration b = Ok d /\ d = S754_infinity false
         /\ Binary64.price_percentage_change b Binary64.zero = Ok r
         /\ r = S754_nan /\ Binary64.feq r Binary64.zero = false).
Proof.
  split.
  - do 4 eexists. split; [reflexivity|].
    split; [vm_compute; reflexivity|].
    split; [reflexivity|]. split; [reflexivity|].
    split; [vm_compute; reflexivity|]. split; [reflexivity|].
    split; [vm_compute; reflexivity|]. split; reflexivity.
  - do 4 eexists. split; [reflexivity|].
    split; [vm_compute; reflexivity|].
    split; [reflexivity|]. split; [reflexivity|].
    split; [vm_compute; reflexivity|]. split; [reflexivity|].
    split; [vm_compute; reflexivity|]. split; reflexivity.
Qed.

(** C8, amended.  In binary64, on every constructed bond whose
    [modified_duration()] and [convexity()] return values,
    [price_percentage_change(0)] returns a value: a zero, equal to 0,
    when the modified duration and half the convexity are finite, and NaN
    otherwise. *)
Theorem zero_shift_binary64 (f c y : Binary64.float) (n k : Z)
  (b : Binary64.Bond) (d cv : Binary64.float) :
  Binary64.__init__ f c y n k = Ok b ->
  Binary64.modified_duration b = Ok d ->
  Binary64.convexity b = Ok cv ->
  exists r,
    Binary64.price_percentage_change b Binary64.zero = Ok r
    /\ if Binary64.is_finite d
          && Binary64.is_finite (Binary64.fmul Binary64.half cv)
       then Binary64.feq r Binary64.zero = true
       else r = S754_nan.
Proof.
  intros _ Hd Hc. unfold Binary64.price_percentage_change.
  rewrite Hd, Hc. cbn [bind].
  change (Binary64.pow 147 Binary64.zero 2) with (Ok (S754_zero false)).
  cbn [bind].
  generalize (Binary64.fmul Binary64.half cv) as h. intros h.
  eexists. split; [reflexivity|].
  destruct d as [[]|[]| |[] md ed]; destruct h as [[]|[]| |[] mh eh];
    reflexivity.
Qed.

Lemma zero_shift_binary64_witness :
  exists r,
    (b <- Binary64.__init__ (Binary64.of_Z 1000) (Binary64.decimal 6 100)
            (Binary64.decimal 8 100) 5 1 ;;
     Binary64.price_percentage_change b Binary64.zero) = Ok r
    /\ Binary64.feq r Binary64.zero = true.
Proof.
  refine (zero_shift_binary64 (Binary64.of_Z 1000) (Binary64.decimal 6 100)
            (Binary64.decimal 8 100) 5 1 _
            (S754_finite false 4627993523181039 (-50))
            (S754_finite false 6167329090462570 (-48))
            eq_refl _ _); vm_compute; reflexivity.
Defined.
